(** * Memory planning pass of the TorchScript JIT

    A shallow embedding of [torch/csrc/jit/passes/memory_planning.cpp]:
    the arena model, the trace based liveness extractor
    [getLiveRangesFromMemEvents], the plan materializers
    [insertAllocStorageNode], [insertAllocTensorNodes],
    [insertPreAllocTensorNodes], and the two drivers [planMemory] and
    [planMemoryWithTracing].  The packing heuristics live in other
    translation units of the repository (only their headers are included
    by the pass) and are modelled from the specification.

    C++ exceptions raised by [TORCH_CHECK] and [TORCH_INTERNAL_ASSERT]
    are [None] of the option monad; [std::unordered_map] and [std::map]
    are association lists. *)

From Stdlib Require Import List ZArith String Bool Lia.
From Stdlib Require Import Permutation Sorting.Sorted.
Import ListNotations.
Open Scope Z_scope.

(** ** Error monad for assertions *)

Notation "'let*' x ':=' m 'in' k" :=
  (match m with Some x => k | None => None end)
  (at level 200, x name, m at level 100, right associativity).

Definition assert (b : bool) : option unit := if b then Some tt else None.

(** [uint64_t] arithmetic. *)
Definition u64 (z : Z) : Z := z mod 2 ^ 64.

(** ** Arena model *)

Record LiveRange := mkLiveRange { lr_begin : Z; lr_end : Z }.

Record Region := mkRegion { offset : Z; size : Z }.

(** [LiveRange{}] / [Region{}]: value initialisation, as done by
    [operator[]] on a missing key. *)
Definition default_live_range : LiveRange := mkLiveRange 0 0.
Definition default_region : Region := mkRegion 0 0.

Definition live_range_eqb (a b : LiveRange) : bool :=
  (lr_begin a =? lr_begin b) && (lr_end a =? lr_end b).

(** Closed intervals [[begin, end]] intersect. *)
Definition overlap (a b : LiveRange) : bool :=
  (lr_begin a <=? lr_end b) && (lr_begin b <=? lr_end a).

(** Half open byte windows [[offset, offset + size)] intersect. *)
Definition collide (p q : Region) : bool :=
  Z.max (offset p) (offset q) <? Z.min (offset p + size p) (offset q + size q).

(** Modelled from the spec: [live_range_start_cmp] (declared in
    memory_planning.h, outside src/), "by begin ascending". *)
Definition live_range_start_cmp (a b : LiveRange) : bool :=
  lr_begin a <? lr_begin b.

(** ** Association lists standing for the C++ maps *)

Section Assoc.
Context {K V : Type} (eqb : K -> K -> bool).

Fixpoint a_find (m : list (K * V)) (k : K) : option V :=
  match m with
  | [] => None
  | (k', v) :: m' => if eqb k k' then Some v else a_find m' k
  end.

Definition a_count (m : list (K * V)) (k : K) : bool :=
  match a_find m k with Some _ => true | None => false end.

(** [m.insert({k, v})]: no effect when the key is present. *)
Definition a_insert (m : list (K * V)) (k : K) (v : V) : list (K * V) :=
  if a_count m k then m else m ++ [(k, v)].

(** [m[k] = v]. *)
Fixpoint a_assign (m : list (K * V)) (k : K) (v : V) : list (K * V) :=
  match m with
  | [] => [(k, v)]
  | (k', v') :: m' =>
      if eqb k k' then (k', v) :: m' else (k', v') :: a_assign m' k v
  end.

(** Reading [m[k]]; a missing key reads as the default value. *)
Definition a_at (d : V) (m : list (K * V)) (k : K) : V :=
  match a_find m k with Some v => v | None => d end.
End Assoc.

(** ** Stable insertion sort, standing for [std::sort] with a comparator *)

Section Sort.
Context {A : Type} (lt : A -> A -> bool).

Fixpoint sort_insert (x : A) (l : list A) : list A :=
  match l with
  | [] => [x]
  | y :: l' => if lt y x then y :: sort_insert x l' else x :: l
  end.

Fixpoint sort (l : list A) : list A :=
  match l with
  | [] => []
  | x :: l' => sort_insert x (sort l')
  end.
End Sort.

(** ** Packing heuristics

    Modelled from the spec: [linearScanHeuristic], [greedyBySize] and
    [greedyByOperatorBreadth] (linear_scan.h, greedy_by_size.h,
    greedy_by_breadth.h and their sources, outside src/), section 4.D.
    All three choose, for a range, the lowest offset among [0] and the
    ends of the conflicting regions at which the block does not collide
    with any conflicting region; the high-water mark of the conflicting
    regions is the fallback of the scan. *)

Definition fits (conflicts : list Region) (off sz : Z) : bool :=
  forallb (fun p => negb (collide p (mkRegion off sz))) conflicts.

Definition high_water (conflicts : list Region) : Z :=
  fold_right (fun p acc => Z.max (offset p + size p) acc) 0 conflicts.

Definition candidate_offsets (conflicts : list Region) : list Z :=
  sort Z.ltb (0 :: map (fun p => offset p + size p) conflicts).

Definition lowest_fit (conflicts : list Region) (sz : Z) : Z :=
  match find (fun o => fits conflicts o sz) (candidate_offsets conflicts) with
  | Some o => o
  | None => high_water conflicts
  end.

Definition ManagedRanges := list (LiveRange * Z).
Definition Plan := list (LiveRange * Region).

(** Linear scan: sweep in [begin] order, evict the active ranges that
    ended before the current one begins, fit against the rest. *)
Definition linear_scan_step (st : Plan * Plan) (item : LiveRange * Z)
    : Plan * Plan :=
  let (active, plan) := st in
  let (r, sz) := item in
  let active' := filter (fun a => negb (lr_end (fst a) <? lr_begin r)) active in
  let reg := mkRegion (lowest_fit (map snd active') sz) sz in
  ((r, reg) :: active', (r, reg) :: plan).

Definition by_begin (a b : LiveRange * Z) : bool :=
  live_range_start_cmp (fst a) (fst b).

Definition linearScanHeuristic (managed : ManagedRanges) : Plan :=
  snd (fold_left linear_scan_step (sort by_begin managed) ([], [])).

(** Greedy by size: descending size, then ascending begin, then
    ascending end. *)
Definition size_cmp (a b : LiveRange * Z) : bool :=
  (snd b <? snd a)
  || ((snd a =? snd b) && (lr_begin (fst a) <? lr_begin (fst b)))
  || ((snd a =? snd b) && (lr_begin (fst a) =? lr_begin (fst b))
      && (lr_end (fst a) <? lr_end (fst b))).

Definition conflicts_with (placed : Plan) (r : LiveRange) : list Region :=
  map snd (filter (fun q => overlap (fst q) r) placed).

Definition greedy_step (placed : Plan) (item : LiveRange * Z) : Plan :=
  let (r, sz) := item in
  (r, mkRegion (lowest_fit (conflicts_with placed r) sz) sz) :: placed.

Definition greedyBySize (managed : ManagedRanges) : Plan :=
  fold_left greedy_step (sort size_cmp managed) [].

(** Greedy by operator breadth.  An out node is given by its timestamp
    and the live ranges of its managed outputs, in graph order. *)
Record OutNode := mkOutNode { on_time : Z; on_outputs : list LiveRange }.

Definition contains (r : LiveRange) (t : Z) : bool :=
  (lr_begin r <=? t) && (t <=? lr_end r).

Definition breadth (managed : ManagedRanges) (n : OutNode) : Z :=
  fold_right (fun it acc => (if contains (fst it) (on_time n) then snd it else 0) + acc)
    0 managed.

(** A range already placed (an earlier output with the same live range)
    keeps its placement. *)
Definition breadth_step (managed : ManagedRanges) (placed : Plan) (r : LiveRange)
    : Plan :=
  if a_count live_range_eqb placed r then placed else
  match a_find live_range_eqb managed r with
  | Some sz => greedy_step placed (r, sz)
  | None => placed
  end.

Definition greedyByOperatorBreadth (managed : ManagedRanges) (outs : list OutNode)
    : Plan :=
  let order := sort (fun a b => breadth managed b <? breadth managed a) outs in
  fold_left (breadth_step managed) (flat_map on_outputs order) [].

(** The strategy enum of [planMemory]. *)
Inductive Strategy := NAIVE | LINEAR_SCAN | GREEDY_BY_SIZE | GREEDY_BY_BREADTH.

(** The heuristic chosen by the [switch] of [planMemory]. *)
Definition run_heuristic (strat : Strategy) (managed : ManagedRanges)
    (outs : list OutNode) : Plan :=
  match strat with
  | NAIVE => []
  | LINEAR_SCAN => linearScanHeuristic managed
  | GREEDY_BY_SIZE => greedyBySize managed
  | GREEDY_BY_BREADTH => greedyByOperatorBreadth managed outs
  end.

(** The correctness invariant of a plan with respect to its input. *)
Definition plan_ok (managed : ManagedRanges) (plan : Plan) : Prop :=
  (forall r s, In (r, s) managed ->
     exists off, a_find live_range_eqb plan r = Some (mkRegion off s))
  /\ (forall r1 r2 p1 p2, r1 <> r2 -> overlap r1 r2 = true ->
        a_find live_range_eqb plan r1 = Some p1 ->
        a_find live_range_eqb plan r2 = Some p2 ->
        collide p1 p2 = false).

(** ** Trace records *)

Inductive EventType := Allocate | Free.

Definition event_type_eqb (a b : EventType) : bool :=
  match a, b with Allocate, Allocate | Free, Free => true | _, _ => false end.

Record MemEvent := mkMemEvent {
  ev_time : Z;
  ev_pc : Z;
  ev_backtrace : string;
  ev_ptr_addr : string;
  ev_node_schema : string;
  ev_node_header : string;
  ev_size : Z;
  ev_type : EventType
}.

Record FrameNodeId := mkFrameNodeId {
  fn_time : Z;
  fn_node_schema : string;
  fn_node_header : string
}.

Definition frame_node_id_eqb (a b : FrameNodeId) : bool :=
  (fn_time a =? fn_time b) && String.eqb (fn_node_schema a) (fn_node_schema b)
  && String.eqb (fn_node_header a) (fn_node_header b).

(** Modelled from the spec: [frame_node_id_cmp] (memory_planning.h,
    outside src/), "by FrameNodeId.time ascending". *)
Definition frame_node_id_cmp (a b : FrameNodeId) : bool := fn_time a <? fn_time b.

(** ** [getLiveRangesFromMemEvents] *)

Record TraceState := mkTraceState {
  allocs : list (string * MemEvent);
  managed_live_ranges : list (LiveRange * Z);
  live_range_node_header : list (LiveRange * FrameNodeId)
}.

Definition empty_trace_state : TraceState := mkTraceState [] [] [].

(** One iteration of the validation loop.  The second argument of the
    [TORCH_INTERNAL_ASSERT] on a [Free], [alloc.node_header ==
    mem_event.node_header], is the macro's message argument: it is only
    printed when the condition (the first argument) fails. *)
Definition trace_step (st : TraceState) (mem_event : MemEvent) : option TraceState :=
  match ev_type mem_event with
  | Allocate =>
      Some (mkTraceState (a_insert String.eqb (allocs st) (ev_ptr_addr mem_event) mem_event)
              (managed_live_ranges st) (live_range_node_header st))
  | Free =>
      let* _ := assert (a_count String.eqb (allocs st) (ev_ptr_addr mem_event)) in
      let* alloc := a_find String.eqb (allocs st) (ev_ptr_addr mem_event) in
      let* _ := assert (event_type_eqb (ev_type alloc) Allocate
                        && (ev_size alloc =? ev_size mem_event)
                        && (ev_time alloc <? ev_time mem_event)
                        && String.eqb (ev_node_schema alloc) (ev_node_schema mem_event)) in
      let lvr := mkLiveRange (ev_time alloc) (ev_time mem_event) in
      Some (mkTraceState (allocs st)
              (a_insert live_range_eqb (managed_live_ranges st) lvr (ev_size alloc))
              (live_range_node_header st
                 ++ [(lvr, mkFrameNodeId (ev_time alloc) (ev_node_schema alloc)
                                         (ev_node_header alloc))]))
  end.

Fixpoint trace_sweep (st : TraceState) (mem_events : list MemEvent) : option TraceState :=
  match mem_events with
  | [] => Some st
  | ev :: rest => let* st' := trace_step st ev in trace_sweep st' rest
  end.

Definition getLiveRangesFromMemEvents (mem_events : list MemEvent)
    : option (list (LiveRange * Z) * list (LiveRange * FrameNodeId)) :=
  let* st := trace_sweep empty_trace_state mem_events in
  let* _ := assert (match allocs st with [] => true | _ => false end) in
  Some (managed_live_ranges st, live_range_node_header st).

(** ** Graph IR *)

Inductive NodeKind := Op (name : string) | AllocateStorage | AllocateTensor | PreAllocateTensor.

Inductive AttrValue := AInt (z : Z) | AInts (zs : list Z).

(** A node: its kind, its canonical schema string, its input and output
    values (by id) and its attributes. *)
Record Node := mkNode {
  n_kind : NodeKind;
  n_header : string;
  n_inputs : list nat;
  n_outputs : list nat;
  n_attrs : list (string * AttrValue)
}.

(** The node list in topological order, and the next fresh value id. *)
Record Graph := mkGraph { g_nodes : list Node; g_fresh : nat }.

(** [graph->create(kind, n)]: a node with [n] fresh outputs, not yet in
    the node list. *)
Definition kind_header (k : NodeKind) : string :=
  match k with
  | Op s => s
  | AllocateStorage => "prim::AllocateStorage"
  | AllocateTensor => "prim::AllocateTensor"
  | PreAllocateTensor => "prim::PreAllocateTensor"
  end%string.

Definition create (g : Graph) (k : NodeKind) (n : nat) : Node * Graph :=
  (mkNode k (kind_header k) [] (seq (g_fresh g) n) [],
   mkGraph (g_nodes g) (g_fresh g + n)).

Definition set_attr (n : Node) (name : string) (v : AttrValue) : Node :=
  mkNode (n_kind n) (n_header n) (n_inputs n) (n_outputs n) (n_attrs n ++ [(name, v)]).

Definition add_input (n : Node) (v : nat) : Node :=
  mkNode (n_kind n) (n_header n) (n_inputs n ++ [v]) (n_outputs n) (n_attrs n).

Definition output (n : Node) : nat := hd O (n_outputs n).

Definition insert_at {A} (i : nat) (x : A) (l : list A) : list A :=
  firstn i l ++ x :: skipn i l.

(** Modelled from the spec: [getHeader] (declared outside src/), the
    canonical schema string of the node. *)
Definition getHeader (n : Node) : string := n_header n.

(** Iterating a loop whose body may throw. *)
Fixpoint fold_opt {A B} (f : A -> B -> option A) (l : list B) (a : A) : option A :=
  match l with
  | [] => Some a
  | b :: l' => let* a' := f a b in fold_opt f l' a'
  end.

Definition attr_int (n : Node) (name : string) : Z :=
  match a_find String.eqb (n_attrs n) name with Some (AInt z) => z | _ => 0 end.

(** ** Collaborators outside the pass

    The tensor type of a value ([Value::type()->cast<TensorType>()]),
    the registry, the alias and liveness analyses, the device picker and
    the timestamps of nodes are used, not defined, by the pass. *)

Record TensorType := mkTensorType {
  tt_scalar_type : option Z;
  tt_sizes : option (list Z);
  tt_strides : option (list Z);
  tt_numel : option Z
}.

Class Externals := {
  value_type : nat -> option TensorType;
  elementSize : Z -> Z;
  getAllOperatorsFor : NodeKind -> list (list string);
  isOptimizableContainerType : Node -> bool;
  GetAlwaysAliveValues : Graph -> list nat;
  GetLiveness : Graph -> list (nat * LiveRange);
  pickDeviceType : Graph -> option Z;
  node_time : Node -> Z
}.

Definition kCPU : Z := 0.

(** [at::detail::defaultStrides]: contiguous strides. *)
Fixpoint defaultStrides (sizes : list Z) : list Z :=
  match sizes with
  | [] => []
  | _ :: t => fold_right Z.mul 1 t :: defaultStrides t
  end.

(** [TORCH_WARN]s of the static path. *)
Inductive Warning :=
| WNotTensor (v : nat)
| WNoScalarType (v : nat)
| WNoSizes (v : nat)
| WNoNumel (v : nat)
| WUnsupported (v : nat)
| WOverlap (v v' : nat).

Section Pass.
Context {X : Externals}.

Definition computeStorageSize (v : nat) : option Z * list Warning :=
  match value_type v with
  | None => (None, [WNotTensor v])
  | Some ttp =>
      match tt_scalar_type ttp with
      | None => (None, [WNoScalarType v])
      | Some _ =>
          match tt_sizes ttp with
          | None => (None, [WNoSizes v])
          | Some _ =>
              match tt_scalar_type ttp with
              | None => (None, [WNoScalarType v])
              | Some scalar_type =>
                  match tt_numel ttp with
                  | None => (None, [WNoNumel v])
                  | Some numel => (Some (u64 (numel * elementSize scalar_type)), [])
                  end
              end
          end
      end
  end.

Definition getSizesStrides (ttp : TensorType) : list Z * list Z :=
  let sizes :=
    match tt_sizes ttp with
    | Some ((s0 :: _) as l) => if s0 =? 0 then [0] else l
    | _ => [0]
    end in
  let strides :=
    match tt_strides ttp with
    | Some ((t0 :: _) as l) => if t0 =? 0 then defaultStrides sizes else l
    | _ => defaultStrides sizes
    end in
  (sizes, strides).

Definition hasOutVariant (n : Node) : bool :=
  existsb (fun variant_args => existsb (String.eqb "out") variant_args)
    (getAllOperatorsFor (n_kind n)).

(** The body of the inner loop of [getManagedValues]; [leaked_values]
    is not returned by the function and is not modelled. *)
Definition manage_output (always_alive : list nat) (n : Node)
    (acc : list (nat * Z) * list Warning) (out_v : nat) : list (nat * Z) * list Warning :=
  let (managed, ws) := acc in
  if existsb (Nat.eqb out_v) always_alive then acc else
  let (sz, w) := computeStorageSize out_v in
  match sz with
  | Some s => if 0 <? s then (a_insert Nat.eqb managed out_v s, ws ++ w)
              else if isOptimizableContainerType n then (managed, ws ++ w)
              else (managed, ws ++ w ++ [WUnsupported out_v])
  | None => if isOptimizableContainerType n then (managed, ws ++ w)
            else (managed, ws ++ w ++ [WUnsupported out_v])
  end.

Definition manage_node (always_alive : list nat)
    (acc : list Node * list (nat * Z) * list Warning) (n : Node)
    : list Node * list (nat * Z) * list Warning :=
  let '(out_nodes, managed, ws) := acc in
  if hasOutVariant n then
    let (managed', ws') := fold_left (manage_output always_alive n) (n_outputs n) (managed, ws) in
    (out_nodes ++ [n], managed', ws')
  else acc.

Definition getManagedValues (g : Graph) (always_alive : list nat)
    : list Node * list (nat * Z) * list Warning :=
  fold_left (manage_node always_alive) (g_nodes g) ([], [], []).

Definition getManagedStuff (g : Graph)
    : list Node * list (nat * Z) * list (nat * LiveRange) * list Warning :=
  let always_alive := GetAlwaysAliveValues g in
  let live_ranges := GetLiveness g in
  let '(out_nodes, managed_tensor_values, ws) := getManagedValues g always_alive in
  let managed_ranges :=
    fold_left (fun (acc : list (nat * LiveRange)) (lvr : nat * LiveRange) =>
                 if a_count Nat.eqb managed_tensor_values (fst lvr)
                 then a_insert Nat.eqb acc (fst lvr) (snd lvr) else acc)
      live_ranges [] in
  (out_nodes, managed_tensor_values, managed_ranges, ws).

(** [managed_live_ranges[managed_value_ranges[item.first]] = item.second];
    the inner [operator[]] inserts [LiveRange{}] for a value without a
    range. *)
Definition collect_managed_live_ranges (sizes : list (nat * Z)) (ranges : list (nat * LiveRange))
    : list (LiveRange * Z) * list (nat * LiveRange) :=
  fold_left (fun (acc : list (LiveRange * Z) * list (nat * LiveRange)) (item : nat * Z) =>
               let (mlr, rs) := acc in
               let r := a_at Nat.eqb default_live_range rs (fst item) in
               let rs' := if a_count Nat.eqb rs (fst item) then rs
                          else rs ++ [(fst item, default_live_range)] in
               (a_assign live_range_eqb mlr r (snd item), rs'))
    sizes ([], ranges).

(** Modelled from the spec: the view the breadth heuristic has of an out
    node, its timestamp and the live ranges of its managed outputs. *)
Definition out_node_view (sizes : list (nat * Z)) (ranges : list (nat * LiveRange)) (n : Node)
    : OutNode :=
  mkOutNode (node_time n)
    (map (a_at Nat.eqb default_live_range ranges) (filter (a_count Nat.eqb sizes) (n_outputs n))).

Definition getTotalAllocationSize (allocations : Plan) : Z :=
  fold_left (fun total_size (item : LiveRange * Region) => Z.max total_size (u64 (offset (snd item) + size (snd item))))
    allocations 0.
End Pass.


(** ** Materialization and drivers *)

Section Materialize.
Context {X : Externals}.

Definition insertAllocStorageNode (g : Graph) (total_size : Z) : Graph * Node :=
  let (storage, g1) := create g AllocateStorage 1 in
  let storage := set_attr storage "total_size" (AInt total_size) in
  let device := match pickDeviceType g1 with Some d => d | None => kCPU end in
  let storage := set_attr storage "device" (AInt device) in
  (mkGraph (storage :: g_nodes g1) (g_fresh g1), storage).

(** [allocation->node()]: the position of the producer of a value. *)
Fixpoint producer_index (ns : list Node) (v : nat) : option nat :=
  match ns with
  | [] => None
  | n :: ns' =>
      if existsb (Nat.eqb v) (n_outputs n) then Some O
      else option_map S (producer_index ns' v)
  end.

(** One iteration of the loop of [insertAllocTensorNodes]: the producer
    gains the new output as an extra input, the [AllocateTensor] node is
    inserted right before it. *)
Definition insert_alloc_tensor (storage : Node) (allocations : Plan) (total_size : Z)
    (g : Graph) (item : LiveRange * nat) : option Graph :=
  let (lvr, value) := item in
  let region := a_at live_range_eqb default_region allocations lvr in
  let* i := producer_index (g_nodes g) value in
  let* node := nth_error (g_nodes g) i in
  let (alloc, g1) := create g AllocateTensor 1 in
  let node' := add_input node (output alloc) in
  let alloc := add_input alloc (output storage) in
  let* ttp := value_type value in
  let (sizes, strides) := getSizesStrides ttp in
  let* _ := assert (u64 (offset region + size region) <=? total_size) in
  let* dtype := tt_scalar_type ttp in
  let alloc := set_attr alloc "size" (AInt (size region)) in
  let alloc := set_attr alloc "offset" (AInt (offset region)) in
  let alloc := set_attr alloc "sizes" (AInts sizes) in
  let alloc := set_attr alloc "stride" (AInts strides) in
  let alloc := set_attr alloc "device" (AInt (attr_int storage "device")) in
  let alloc := set_attr alloc "dtype" (AInt dtype) in
  Some (mkGraph (firstn i (g_nodes g1) ++ alloc :: node' :: skipn (S i) (g_nodes g1))
                (g_fresh g1)).

Definition insertAllocTensorNodes (g : Graph) (storage : Node) (allocations : Plan)
    (manage_range_values : list (LiveRange * nat)) : option Graph :=
  fold_opt (insert_alloc_tensor storage allocations (attr_int storage "total_size"))
    manage_range_values g.

(** [std::map<LiveRange, const Value*, live_range_start_cmp>]: sorted by
    the comparator, two keys are the same key when neither is before the
    other, and [insert] keeps the value already there. *)
Definition start_equiv (a b : LiveRange) : bool :=
  negb (live_range_start_cmp a b) && negb (live_range_start_cmp b a).

Definition range_map_insert (m : list (LiveRange * nat)) (r : LiveRange) (v : nat)
    : list (LiveRange * nat) :=
  if a_count start_equiv m r then m
  else sort_insert (fun x y => live_range_start_cmp (fst x) (fst y)) (r, v) m.

(** An iteration of lines 410-420 of [planMemory]. *)
Definition range_value_step (acc : list (LiveRange * nat) * list Warning)
    (item : nat * LiveRange) : list (LiveRange * nat) * list Warning :=
  let (m, ws) := acc in
  let ws' := match a_find start_equiv m (snd item) with
             | Some v' => ws ++ [WOverlap (fst item) v']
             | None => ws
             end in
  (range_map_insert m (snd item) (fst item), ws').

Definition collect_range_values (managed_value_ranges : list (nat * LiveRange))
    : list (LiveRange * nat) * list Warning :=
  fold_left range_value_step managed_value_ranges ([], []).

(** [planMemory]: [None] when a [TORCH_CHECK] throws; the graph and the
    warnings emitted otherwise.  The four enumerators are all handled,
    so the [default] branch is unreachable. *)
Definition planMemory (g : Graph) (strat : Strategy) : option (Graph * list Warning) :=
  let '(out_nodes, managed_value_sizes, managed_value_ranges, ws) := getManagedStuff g in
  let (managed_live_ranges, managed_value_ranges) :=
    collect_managed_live_ranges managed_value_sizes managed_value_ranges in
  match strat with
  | NAIVE => Some (g, ws)
  | _ =>
      let allocations :=
        run_heuristic strat managed_live_ranges
          (map (out_node_view managed_value_sizes managed_value_ranges) out_nodes) in
      let total_size := getTotalAllocationSize allocations in
      let (managed_range_values, ws2) := collect_range_values managed_value_ranges in
      let (g1, storage_node) := insertAllocStorageNode g total_size in
      let* g2 := insertAllocTensorNodes g1 storage_node allocations managed_range_values in
      Some (g2, ws ++ ws2)
  end.

(** The managed map and the out-node views [planMemory] hands to the
    heuristics. *)
Definition planMemory_plan_inputs {X : Externals} (g : Graph) : ManagedRanges * list OutNode :=
  let '(out_nodes, managed_value_sizes, managed_value_ranges, _) := getManagedStuff g in
  let (managed_live_ranges, managed_value_ranges) :=
    collect_managed_live_ranges managed_value_sizes managed_value_ranges in
  (managed_live_ranges, map (out_node_view managed_value_sizes managed_value_ranges) out_nodes).

(** Trace mode. *)

Definition group_append (m : list (FrameNodeId * list LiveRange))
    (item : LiveRange * FrameNodeId) : list (FrameNodeId * list LiveRange) :=
  a_assign frame_node_id_eqb m (snd item) (a_at frame_node_id_eqb [] m (snd item) ++ [fst item]).

Definition collectLiveRangesPerNode (live_range_node_header : list (LiveRange * FrameNodeId))
    : list (FrameNodeId * list LiveRange) :=
  let node_live_ranges := fold_left group_append live_range_node_header [] in
  sort (fun a b => frame_node_id_cmp (fst a) (fst b))
    (map (fun item => (fst item, sort live_range_start_cmp (snd item))) node_live_ranges).

(** [a.compare(b)] used as a [bool]: true when the strings differ. *)
Definition string_compare (a b : string) : bool := negb (String.eqb a b).

(** [while (!getHeader(node).compare(header)) node++;] starting at
    position [i]; running past the last node has no defined result. *)
Fixpoint advance_cursor (suffix : list Node) (i : nat) (header : string) : option nat :=
  match suffix with
  | [] => None
  | n :: rest =>
      if negb (string_compare (getHeader n) header) then advance_cursor rest (S i) header
      else Some i
  end.

Definition insert_pre_alloc_tensor (allocations : Plan) (st : Graph * nat) (lvr : LiveRange)
    : Graph * nat :=
  let (g, i) := st in
  let region := a_at live_range_eqb default_region allocations lvr in
  let (alloc, g1) := create g PreAllocateTensor 0 in
  let alloc := set_attr alloc "size" (AInt (size region)) in
  let alloc := set_attr alloc "offset" (AInt (offset region)) in
  (mkGraph (insert_at i alloc (g_nodes g1)) (g_fresh g1), S i).

Definition insert_pre_alloc_group (allocations : Plan) (st : Graph * nat)
    (item : FrameNodeId * list LiveRange) : option (Graph * nat) :=
  let (g, cursor) := st in
  let frame_id := fst item in
  let lvrs := sort live_range_start_cmp (snd item) in
  let* i := advance_cursor (skipn cursor (g_nodes g)) cursor (fn_node_header frame_id) in
  let* node := nth_error (g_nodes g) i in
  let* _ := assert (string_compare (n_header node) (fn_node_header frame_id)) in
  Some (fold_left (insert_pre_alloc_tensor allocations) lvrs (g, i)).

(** The storage node is not read: the line reading its [total_size] is
    commented out in the source. *)
Definition insertPreAllocTensorNodes (g : Graph) (storage : Node) (allocations : Plan)
    (collected_node_live_ranges : list (FrameNodeId * list LiveRange)) : option Graph :=
  let collected := sort (fun a b => frame_node_id_cmp (fst a) (fst b)) collected_node_live_ranges in
  let* st := fold_opt (insert_pre_alloc_group allocations) collected (g, O) in
  Some (fst st).

Definition materialize_trace (g : Graph) (allocations : Plan)
    (live_range_node_header : list (LiveRange * FrameNodeId)) : option Graph :=
  let total_size := getTotalAllocationSize allocations in
  let (g1, storage_node) := insertAllocStorageNode g total_size in
  insertPreAllocTensorNodes g1 storage_node allocations
    (collectLiveRangesPerNode live_range_node_header).

(** [planMemoryWithTracing]; the first [greedyBySize] result is
    overwritten or dropped by every branch of the [switch]. *)
Definition planMemoryWithTracing (g : Graph) (strat : Strategy) (mem_events : list MemEvent)
    : option Graph :=
  let* _ := assert (negb (match mem_events with [] => true | _ => false end)) in
  let* res := getLiveRangesFromMemEvents mem_events in
  let (managed_live_ranges, live_range_node_header) := res in
  let _ := greedyBySize managed_live_ranges in
  match strat with
  | NAIVE => Some g
  | LINEAR_SCAN =>
      materialize_trace g (linearScanHeuristic managed_live_ranges) live_range_node_header
  | GREEDY_BY_SIZE =>
      materialize_trace g (greedyBySize managed_live_ranges) live_range_node_header
  | GREEDY_BY_BREADTH => Some g
  end.
End Materialize.


(** ** A concrete environment for evaluating the pass *)

Definition add_schema_args : list string := ["self"; "other"; "alpha"; "out"]%string.

(** Value [v] is a [float] tensor of [v] elements; value [0] is the
    graph input. *)
Definition example_externals (liveness : list (nat * LiveRange)) : Externals := {|
  value_type := fun v => Some (mkTensorType (Some 6) (Some [Z.of_nat v]) (Some [1])
                                            (Some (Z.of_nat v)));
  elementSize := fun _ => 4;
  getAllOperatorsFor := fun k => match k with
                                 | Op "aten::add" => [add_schema_args]
                                 | _ => []
                                 end%string;
  isOptimizableContainerType := fun _ => false;
  GetAlwaysAliveValues := fun _ => [O];
  GetLiveness := fun _ => liveness;
  pickDeviceType := fun _ => None;
  node_time := fun n => Z.of_nat (hd O (n_outputs n))
|}.

Definition add_node (inputs : list nat) (out : nat) : Node :=
  mkNode (Op "aten::add") "aten::add(Tensor self, Tensor other, *, Scalar alpha=1) -> Tensor"
    inputs [out] [].

Definition mul_node (inputs : list nat) (out : nat) : Node :=
  mkNode (Op "aten::mul") "aten::mul(Tensor self, Tensor other) -> Tensor" inputs [out] [].


(** ** Concrete traces *)

Definition alloc_X : MemEvent := mkMemEvent 1 0 "" "X" "aten::add" "A" 16 Allocate.

(** One allocation and its free. *)
Definition matched_pair_trace : list MemEvent :=
  [alloc_X; mkMemEvent 5 0 "" "X" "aten::add" "A" 16 Free].

(** The free reports another node header than the allocation. *)
Definition header_mismatch_trace : list MemEvent :=
  [alloc_X; mkMemEvent 5 0 "" "X" "aten::add" "B" 16 Free].


(** ** Concrete graphs *)

(** Two [aten::add] nodes whose outputs [1] and [2] get the same live
    range, then a consumer. *)
Definition dup_graph : Graph :=
  mkGraph [add_node [0; 0]%nat 1; add_node [0; 0]%nat 2; mul_node [1; 2]%nat 3] 4.

Definition dup_liveness : list (nat * LiveRange) :=
  [(1%nat, mkLiveRange 0 2); (2%nat, mkLiveRange 0 2)].

(** A [mul] followed by an [add]; [aten::mul] has no out variant in
    [example_externals]. *)
Definition pre_alloc_graph : Graph :=
  mkGraph [mul_node [0; 0]%nat 1; add_node [1; 1]%nat 2] 3.

Definition add_frame : FrameNodeId :=
  mkFrameNodeId 1 "aten::add" (n_header (add_node [] 0)).

Definition traced_range : LiveRange := mkLiveRange 1 9.

Definition storage_of_total (total : Z) : Node :=
  mkNode AllocateStorage "prim::AllocateStorage" [] [3%nat]
    [("total_size"%string, AInt total); ("device"%string, AInt 0)].

(** ** Concrete managed ranges: the scenario of the specification *)

Definition spec_ranges : ManagedRanges :=
  [(mkLiveRange 0 3, 100); (mkLiveRange 1 2, 40); (mkLiveRange 4 6, 60); (mkLiveRange 5 7, 30)].

Definition spec_out_nodes : list OutNode :=
  [mkOutNode 0 [mkLiveRange 0 3]; mkOutNode 1 [mkLiveRange 1 2];
   mkOutNode 4 [mkLiveRange 4 6]; mkOutNode 5 [mkLiveRange 5 7]].


(** ** [MemoryPlanningAllocator] (MemoryPlanningAllocator.cpp)

    The allocator replays a precomputed plan: [push_allocation] pushes
    the address [buffer.data() + offset] with its size on the stack
    [allocs_], and each [allocate] pops the top entry.  Addresses are
    integers (pointer arithmetic on [uint8_t*]); the top of the stack is
    the head of the list. *)

Inductive DeleterFn := DoNothing.

(** [at::DataPtr{data, ctx, deleter, device}]. *)
Record DataPtr := mkDataPtr {
  dp_data : Z;
  dp_ctx : Z;
  dp_deleter : DeleterFn;
  dp_device : Z
}.

Record MemoryPlanningAllocator := mkMemoryPlanningAllocator {
  device_type_ : Z;
  allocs_ : list (Z * Z)
}.

(** [allocate(nbytes)]: [top()] then [pop()], then [TORCH_CHECK(size ==
    nbytes)].  The outer [None] is [top()] of an empty [std::stack]
    (undefined behaviour); the inner [None] is the failed check, raised
    after the entry was popped, so the new allocator state is returned
    in both cases. *)
Definition allocate (a : MemoryPlanningAllocator) (nbytes : Z)
    : option (MemoryPlanningAllocator * option DataPtr) :=
  match allocs_ a with
  | [] => None
  | alloc :: rest =>
      let a' := mkMemoryPlanningAllocator (device_type_ a) rest in
      let size := fst alloc in
      let data := snd alloc in
      Some (a', if size =? nbytes
                then Some (mkDataPtr data data DoNothing (device_type_ a))
                else None)
  end.

(** [push_allocation(buffer, size, offset, device_type)], with [buffer]
    given by its base address [buffer.data()]. *)
Definition push_allocation (a : MemoryPlanningAllocator) (buffer size offset device_type : Z)
    : option MemoryPlanningAllocator :=
  let* _ := assert (device_type =? device_type_ a) in
  Some (mkMemoryPlanningAllocator (device_type_ a) ((size, buffer + offset) :: allocs_ a)).


(** * Proofs *)

(** ** Basic facts *)

Lemma live_range_eqb_spec a b : live_range_eqb a b = true <-> a = b.
Proof.
  destruct a as [a1 a2], b as [b1 b2]; unfold live_range_eqb; simpl.
  rewrite andb_true_iff, !Z.eqb_eq; split.
  - intros [-> ->]; reflexivity.
  - intros H; inversion H; auto.
Qed.

Lemma a_find_In {V} (m : list (LiveRange * V)) k v :
  a_find live_range_eqb m k = Some v -> In (k, v) m.
Proof.
  induction m as [|[k' v'] m IH]; simpl; [discriminate|].
  destruct (live_range_eqb k k') eqn:E.
  - apply live_range_eqb_spec in E; subst; intros H; inversion H; auto.
  - auto.
Qed.

Lemma In_a_find {V} (m : list (LiveRange * V)) k v :
  NoDup (map fst m) -> In (k, v) m -> a_find live_range_eqb m k = Some v.
Proof.
  induction m as [|[k' v'] m IH]; simpl; [tauto|].
  intros Hnd Hin; inversion Hnd as [|? ? Hnot Hnd']; subst.
  destruct (live_range_eqb k k') eqn:E.
  - apply live_range_eqb_spec in E; subst.
    destruct Hin as [H | H]; [inversion H; auto|].
    exfalso; apply Hnot; apply (in_map fst _ _ H).
  - destruct Hin as [H | H]; [|auto].
    inversion H; subst; rewrite (proj2 (live_range_eqb_spec k k)) in E;
      [discriminate | reflexivity].
Qed.

Lemma In_key_a_find {V} (m : list (LiveRange * V)) k v :
  In (k, v) m -> exists v', a_find live_range_eqb m k = Some v'.
Proof.
  induction m as [|[k' v'] m IH]; simpl; [tauto|].
  intros Hin; destruct (live_range_eqb k k') eqn:E; [eauto|].
  destruct Hin as [H | H]; [|auto].
  inversion H; subst; rewrite (proj2 (live_range_eqb_spec k k)) in E;
    [discriminate | reflexivity].
Qed.

Lemma overlap_sym a b : overlap a b = overlap b a.
Proof. unfold overlap; apply andb_comm. Qed.

Lemma collide_sym p q : collide p q = collide q p.
Proof. unfold collide; rewrite Z.max_comm, Z.min_comm; reflexivity. Qed.

(** ** The fit rule never collides with a conflicting region *)

Lemma fits_spec cs o s :
  fits cs o s = true -> forall p, In p cs -> collide p (mkRegion o s) = false.
Proof.
  unfold fits; rewrite forallb_forall; intros H p Hp.
  specialize (H p Hp); destruct (collide p (mkRegion o s)); auto.
Qed.

Lemma high_water_above cs p : In p cs -> offset p + size p <= high_water cs.
Proof.
  induction cs as [|q cs IH]; simpl; [tauto|].
  intros [-> | H]; [lia|]. specialize (IH H); lia.
Qed.

Lemma high_water_fits cs s : fits cs (high_water cs) s = true.
Proof.
  unfold fits; rewrite forallb_forall; intros p Hp.
  apply high_water_above in Hp; unfold collide; simpl.
  apply negb_true_iff, Z.ltb_ge; lia.
Qed.

Lemma lowest_fit_fits cs s : fits cs (lowest_fit cs s) s = true.
Proof.
  unfold lowest_fit.
  destruct (find (fun o => fits cs o s) (candidate_offsets cs)) eqn:E.
  - apply find_some in E; tauto.
  - apply high_water_fits.
Qed.

Lemma lowest_fit_no_collision cs s p :
  In p cs -> collide p (mkRegion (lowest_fit cs s) s) = false.
Proof. apply fits_spec, lowest_fit_fits. Qed.

(** ** The sort is a permutation, and sorted for an asymmetric test *)

Section SortFacts.
Context {A : Type} (lt : A -> A -> bool).

Lemma sort_insert_perm x l : Permutation (sort_insert lt x l) (x :: l).
Proof.
  induction l as [|y l IH]; simpl; [auto|].
  destruct (lt y x); [|auto].
  eapply perm_trans; [apply perm_skip, IH | apply perm_swap].
Qed.

Lemma sort_perm l : Permutation (sort lt l) l.
Proof.
  induction l as [|x l IH]; simpl; [auto|].
  eapply perm_trans; [apply sort_insert_perm | apply perm_skip, IH].
Qed.

Hypothesis lt_asym : forall x y, lt x y = true -> lt y x = false.

Definition not_after (x y : A) : Prop := lt y x = false.

Lemma sort_insert_sorted x l :
  Sorted not_after l -> Sorted not_after (sort_insert lt x l).
Proof.
  induction 1 as [|y l Hs IH Hhd]; simpl; [auto|].
  destruct (lt y x) eqn:E.
  - constructor; [exact IH|].
    destruct l as [|z l]; simpl.
    + constructor; apply lt_asym, E.
    + inversion Hhd; subst. destruct (lt z x); constructor; auto.
      apply lt_asym, E.
  - constructor; [constructor; auto | constructor; exact E].
Qed.

Lemma sort_sorted l : Sorted not_after (sort lt l).
Proof. induction l; simpl; [constructor | apply sort_insert_sorted; auto]. Qed.
End SortFacts.

(** ** The packing invariant *)

Definition sep (pl : Plan) : Prop :=
  forall r1 p1 r2 p2, In (r1, p1) pl -> In (r2, p2) pl -> r1 <> r2 ->
    overlap r1 r2 = true -> collide p1 p2 = false.

Lemma sep_nil : sep [].
Proof. intros ? ? ? ? []. Qed.

(** Adding a placement that avoids every overlapping placed region. *)
Lemma sep_cons pl r reg :
  sep pl ->
  (forall q p, In (q, p) pl -> q <> r -> overlap q r = true -> collide p reg = false) ->
  sep ((r, reg) :: pl).
Proof.
  intros Hs Hnew r1 p1 r2 p2 H1 H2 Hne Hov; simpl in H1, H2.
  destruct H1 as [E1 | H1], H2 as [E2 | H2].
  - inversion E1; inversion E2; subst; congruence.
  - inversion E1; subst. rewrite collide_sym.
    apply (Hnew r2 p2 H2); [congruence | rewrite overlap_sym; exact Hov].
  - inversion E2; subst. apply (Hnew r1 p1 H1); [congruence | exact Hov].
  - eapply Hs; eauto.
Qed.

Lemma in_conflicts pl r q p :
  In (q, p) pl -> overlap q r = true -> In p (conflicts_with pl r).
Proof.
  intros H Hov; unfold conflicts_with.
  apply (in_map snd _ (q, p)), filter_In; auto.
Qed.

Lemma greedy_step_sep pl item : sep pl -> sep (greedy_step pl item).
Proof.
  destruct item as [r sz]; simpl; intros Hs; apply sep_cons; [exact Hs|].
  intros q p Hin _ Hov. apply lowest_fit_no_collision, (in_conflicts _ _ _ _ Hin Hov).
Qed.

(** Sizes of the placed regions are the managed sizes. *)
Definition sized (managed : ManagedRanges) (pl : Plan) : Prop :=
  forall r reg, In (r, reg) pl -> a_find live_range_eqb managed r = Some (size reg).

(** A plan satisfying the three properties is correct. *)
Lemma plan_ok_intro managed pl :
  NoDup (map fst managed) -> sep pl -> sized managed pl ->
  (forall r s, In (r, s) managed -> exists reg, In (r, reg) pl) ->
  plan_ok managed pl.
Proof.
  intros Hnd Hs Hsz Hcov; split.
  - intros r s Hin. destruct (Hcov r s Hin) as [reg Hreg].
    destruct (In_key_a_find _ _ _ Hreg) as [reg' Hf].
    pose proof (Hsz r reg' (a_find_In _ _ _ Hf)) as Hm.
    rewrite (In_a_find _ _ _ Hnd Hin) in Hm.
    exists (offset reg'). rewrite Hf; f_equal.
    destruct reg'; simpl in *; congruence.
  - intros r1 r2 p1 p2 Hne Hov H1 H2.
    eapply Hs; eauto using a_find_In.
Qed.

(** ** Greedy by size and greedy by breadth *)

Lemma greedy_fold_sep order pl :
  sep pl -> sep (fold_left greedy_step order pl).
Proof.
  revert pl; induction order as [|it order IH]; simpl; auto.
  intros pl Hs; apply IH, greedy_step_sep, Hs.
Qed.

Lemma greedy_fold_grows order pl e :
  In e pl -> In e (fold_left greedy_step order pl).
Proof.
  revert pl; induction order as [|[r sz] order IH]; simpl; auto.
  intros pl Hin; apply IH; right; exact Hin.
Qed.

Lemma greedy_fold_places order pl r s :
  In (r, s) order -> exists reg, In (r, reg) (fold_left greedy_step order pl).
Proof.
  revert pl; induction order as [|[r' sz] order IH]; simpl; [tauto|].
  intros pl [E | Hin]; [|apply IH, Hin].
  inversion E; subst. eexists; apply greedy_fold_grows; left; reflexivity.
Qed.

Lemma greedy_fold_sized managed order pl :
  (forall r s, In (r, s) order -> a_find live_range_eqb managed r = Some s) ->
  sized managed pl -> sized managed (fold_left greedy_step order pl).
Proof.
  revert pl; induction order as [|[r sz] order IH]; simpl; auto.
  intros pl Hord Hpl; apply IH; [intros; apply Hord; auto|].
  intros q reg [E | Hin]; [|apply Hpl, Hin].
  inversion E; subst; simpl; apply Hord; auto.
Qed.

Lemma greedyBySize_ok managed :
  NoDup (map fst managed) -> plan_ok managed (greedyBySize managed).
Proof.
  intros Hnd; unfold greedyBySize.
  pose proof (sort_perm size_cmp managed) as Hp.
  apply plan_ok_intro; auto.
  - apply greedy_fold_sep, sep_nil.
  - apply greedy_fold_sized; [|intros ? ? []].
    intros r s Hin; apply In_a_find; auto.
    eapply Permutation_in; eauto.
  - intros r s Hin; apply (greedy_fold_places _ _ r s).
    eapply Permutation_in; [apply Permutation_sym, Hp | exact Hin].
Qed.

Lemma breadth_fold_sep managed order pl :
  sep pl -> sep (fold_left (breadth_step managed) order pl).
Proof.
  revert pl; induction order as [|r order IH]; simpl; auto.
  intros pl Hs; apply IH; unfold breadth_step.
  destruct (a_count live_range_eqb pl r); [exact Hs|].
  destruct (a_find live_range_eqb managed r); [apply greedy_step_sep|]; exact Hs.
Qed.

Lemma breadth_fold_grows managed order pl e :
  In e pl -> In e (fold_left (breadth_step managed) order pl).
Proof.
  revert pl; induction order as [|r order IH]; simpl; auto.
  intros pl Hin; apply IH; unfold breadth_step.
  destruct (a_count live_range_eqb pl r); [exact Hin|].
  destruct (a_find live_range_eqb managed r); simpl; auto.
Qed.

Lemma breadth_fold_places managed order pl r s :
  In r order -> a_find live_range_eqb managed r = Some s ->
  exists reg, In (r, reg) (fold_left (breadth_step managed) order pl).
Proof.
  revert pl; induction order as [|r' order IH]; simpl; [tauto|].
  intros pl [E | Hin] Hf; [|apply IH; auto].
  subst; unfold breadth_step, a_count.
  destruct (a_find live_range_eqb pl r) as [reg|] eqn:Hp.
  - exists reg; apply breadth_fold_grows, a_find_In, Hp.
  - rewrite Hf; simpl. eexists; apply breadth_fold_grows; left; reflexivity.
Qed.

Lemma breadth_fold_sized managed order pl :
  sized managed pl -> sized managed (fold_left (breadth_step managed) order pl).
Proof.
  revert pl; induction order as [|r order IH]; simpl; auto.
  intros pl Hpl; apply IH; unfold breadth_step.
  destruct (a_count live_range_eqb pl r); [exact Hpl|].
  destruct (a_find live_range_eqb managed r) eqn:Hf; [|exact Hpl].
  intros q reg [E | Hin]; [|apply Hpl, Hin].
  inversion E; subst; simpl; exact Hf.
Qed.

(** Every managed range is an output of some out node. *)
Definition covers (outs : list OutNode) (managed : ManagedRanges) : Prop :=
  forall r s, In (r, s) managed -> exists n, In n outs /\ In r (on_outputs n).

Lemma greedyByOperatorBreadth_ok managed outs :
  NoDup (map fst managed) -> covers outs managed ->
  plan_ok managed (greedyByOperatorBreadth managed outs).
Proof.
  intros Hnd Hcov; unfold greedyByOperatorBreadth.
  apply plan_ok_intro; auto.
  - apply breadth_fold_sep, sep_nil.
  - apply breadth_fold_sized; intros ? ? [].
  - intros r s Hin. destruct (Hcov r s Hin) as [n [Hn Hr]].
    apply (breadth_fold_places _ _ _ r s); [|apply In_a_find; auto].
    apply in_flat_map; exists n; split; [|exact Hr].
    eapply Permutation_in; [apply Permutation_sym, sort_perm | exact Hn].
Qed.

(** ** Linear scan *)

Lemma by_begin_asym x y : by_begin x y = true -> by_begin y x = false.
Proof.
  unfold by_begin, live_range_start_cmp; rewrite Z.ltb_lt; intros H.
  apply Z.ltb_ge; lia.
Qed.

Lemma ls_fold_grows order active plan e :
  In e plan -> In e (snd (fold_left linear_scan_step order (active, plan))).
Proof.
  revert active plan; induction order as [|[r sz] order IH]; simpl; auto.
  intros active plan Hin; apply IH; right; exact Hin.
Qed.

Lemma ls_fold_places order active plan r s :
  In (r, s) order ->
  exists reg, In (r, reg) (snd (fold_left linear_scan_step order (active, plan))).
Proof.
  revert active plan; induction order as [|[r' sz] order IH]; simpl; [tauto|].
  intros active plan [E | Hin]; [|apply IH, Hin].
  inversion E; subst. eexists; apply ls_fold_grows; left; reflexivity.
Qed.

Lemma ls_fold_sized managed order active plan :
  (forall r s, In (r, s) order -> a_find live_range_eqb managed r = Some s) ->
  sized managed plan ->
  sized managed (snd (fold_left linear_scan_step order (active, plan))).
Proof.
  revert active plan; induction order as [|[r sz] order IH]; simpl; auto.
  intros active plan Hord Hpl; apply IH; [intros; apply Hord; auto|].
  intros q reg [E | Hin]; [|apply Hpl, Hin].
  inversion E; subst; simpl; apply Hord; auto.
Qed.

(** The active set holds every placed range that may still overlap a
    range beginning at [b] or later. *)
Lemma ls_fold_sep order active plan b :
  Sorted (not_after by_begin) order ->
  (forall x, hd_error order = Some x -> b <= lr_begin (fst x)) ->
  sep plan ->
  (forall q p, In (q, p) plan -> b <= lr_end q -> In (q, p) active) ->
  sep (snd (fold_left linear_scan_step order (active, plan))).
Proof.
  revert active plan b; induction order as [|[r sz] order IH]; simpl; auto.
  intros active plan b Hsort Hhd Hs Hact.
  assert (Hb : b <= lr_begin r) by (apply (Hhd (r, sz)); reflexivity).
  set (active' := filter (fun a => negb (lr_end (fst a) <? lr_begin r)) active).
  assert (Hkeep : forall q p, In (q, p) plan -> lr_begin r <= lr_end q ->
                   In (q, p) active').
  { intros q p Hin Hle; apply filter_In; split.
    - apply Hact; [exact Hin | lia].
    - simpl; apply negb_true_iff, Z.ltb_ge; lia. }
  inversion Hsort as [|? ? Hsort' Hrel]; subst.
  apply (IH _ _ (lr_begin r) Hsort').
  - intros x Hx; destruct order as [|y order]; [discriminate|].
    inversion Hx; subst. inversion Hrel as [|? ? Hna]; subst.
    unfold not_after, by_begin, live_range_start_cmp in Hna; simpl in Hna.
    apply Z.ltb_ge in Hna; exact Hna.
  - apply sep_cons; [exact Hs|].
    intros q p Hin _ Hov. apply lowest_fit_no_collision.
    apply (in_map snd _ (q, p)), Hkeep; [exact Hin|].
    unfold overlap in Hov; apply andb_true_iff in Hov; destruct Hov as [_ H].
    apply Z.leb_le in H; exact H.
  - intros q p [E | Hin] Hle; [left; exact E | right; apply Hkeep; auto].
Qed.

Lemma linearScanHeuristic_ok managed :
  NoDup (map fst managed) -> plan_ok managed (linearScanHeuristic managed).
Proof.
  intros Hnd; unfold linearScanHeuristic.
  pose proof (sort_perm by_begin managed) as Hp.
  apply plan_ok_intro; auto.
  - apply (ls_fold_sep _ _ _
             (match hd_error (sort by_begin managed) with
              | Some x => lr_begin (fst x) | None => 0 end)).
    + apply sort_sorted, by_begin_asym.
    + intros x ->; lia.
    + apply sep_nil.
    + intros ? ? [].
  - apply ls_fold_sized; [|intros ? ? []].
    intros r s Hin; apply In_a_find; auto.
    eapply Permutation_in; eauto.
  - intros r s Hin; apply (ls_fold_places _ _ _ r s).
    eapply Permutation_in; [apply Permutation_sym, Hp | exact Hin].
Qed.

(** ** Claims on the packing heuristics *)


(** ** Claims on the trace extractor *)

Lemma a_insert_nonempty {K V} (eqb : K -> K -> bool) (m : list (K * V)) k v :
  a_insert eqb m k v <> [].
Proof.
  unfold a_insert, a_count; destruct (a_find eqb m k) eqn:E.
  - destruct m; [discriminate | congruence].
  - destruct m; discriminate.
Qed.

Lemma trace_step_allocs st e st' :
  trace_step st e = Some st' ->
  (allocs st <> [] -> allocs st' <> []) /\ (ev_type e = Allocate -> allocs st' <> []).
Proof.
  unfold trace_step; destruct (ev_type e).
  - intros H; inversion H; subst; simpl; split; intros; apply a_insert_nonempty.
  - destruct (assert _); [|discriminate].
    destruct (a_find _ _ _); [|discriminate].
    destruct (assert _); [|discriminate].
    intros H; inversion H; subst; simpl; split; [auto | discriminate].
Qed.

Lemma trace_sweep_allocs evs st st' :
  trace_sweep st evs = Some st' ->
  (allocs st <> [] \/ exists e, In e evs /\ ev_type e = Allocate) -> allocs st' <> [].
Proof.
  revert st; induction evs as [|e evs IH]; simpl.
  - intros st H [Hne | [e [[] _]]]; inversion H; subst; exact Hne.
  - intros st H Hcase. destruct (trace_step st e) as [st1|] eqn:Hs; [|discriminate].
    apply (IH st1 H). destruct (trace_step_allocs _ _ _ Hs) as [H1 H2].
    destruct Hcase as [Hne | [e' [[-> | Hin] Ht]]].
    + left; auto.
    + left; auto.
    + right; eauto.
Qed.

(** C2 (the code does not do what the claim says): on a trace made of
    one allocation and its matching free, the entry of the allocation is
    still in the open-allocation map after the sweep, and the final
    emptiness assertion fails. *)
Theorem matched_trace_rejected :
  option_map allocs (trace_sweep empty_trace_state matched_pair_trace)
    = Some [("X"%string, alloc_X)]
  /\ getLiveRangesFromMemEvents matched_pair_trace = None.
Proof. split; reflexivity. Qed.

(** C3 (the code does not do what the claim says): every event list that
    contains an allocation is rejected by the extractor, so no list of
    one or more matched pairs yields its live ranges. *)
Theorem trace_with_allocation_rejected (mem_events : list MemEvent) :
  (exists e, In e mem_events /\ ev_type e = Allocate) ->
  getLiveRangesFromMemEvents mem_events = None.
Proof.
  intros Hex; unfold getLiveRangesFromMemEvents.
  destruct (trace_sweep empty_trace_state mem_events) as [st|] eqn:Hs; [|reflexivity].
  pose proof (trace_sweep_allocs _ _ _ Hs (or_intror Hex)) as Hne.
  destruct (allocs st); [congruence | reflexivity].
Qed.

Lemma trace_with_allocation_rejected_witness :
  (exists e, In e matched_pair_trace /\ ev_type e = Allocate)
  /\ getLiveRangesFromMemEvents matched_pair_trace = None.
Proof.
  assert (H : exists e, In e matched_pair_trace /\ ev_type e = Allocate)
    by (exists alloc_X; split; [left; reflexivity | reflexivity]).
  split; [exact H | apply (trace_with_allocation_rejected matched_pair_trace H)].
Defined.

(** C5 (the code does not do what the claim says): a free whose node
    header differs from the allocation's passes the per-event assertion
    and its live range is emitted, with the allocation's frame. *)
Theorem free_with_other_header_accepted :
  option_map (fun st => (managed_live_ranges st, live_range_node_header st))
    (trace_sweep empty_trace_state header_mismatch_trace)
  = Some ([(mkLiveRange 1 5, 16)],
          [(mkLiveRange 1 5, mkFrameNodeId 1 "aten::add" "A")]).
Proof. reflexivity. Qed.

(** ** Claims on the trace-mode materializer *)

(** C4 (the code does not do what the claim says): the cursor loop skips
    the nodes whose header equals the group's header and stops at the
    first one whose header differs; the [PreAllocateTensor] of an
    [aten::add] frame lands before the [aten::mul] node in front of it. *)
Theorem pre_alloc_before_first_other_header :
  option_map (fun g => map n_kind (g_nodes g))
    (insertPreAllocTensorNodes pre_alloc_graph (storage_of_total 16)
       [(traced_range, mkRegion 0 16)] [(add_frame, [traced_range])])
  = Some [PreAllocateTensor; Op "aten::mul"; Op "aten::add"].
Proof. reflexivity. Qed.

(** ** Claims on the total size bound *)

Lemma fold_max_ge {A} (f : A -> Z) (l : list A) (t : Z) :
  t <= fold_left (fun acc it => Z.max acc (f it)) l t
  /\ (forall it, In it l -> f it <= fold_left (fun acc it => Z.max acc (f it)) l t).
Proof.
  revert t; induction l as [|x l IH]; simpl; [split; [lia | tauto]|].
  intros t; destruct (IH (Z.max t (f x))) as [H1 H2]; split; [lia|].
  intros it [-> | Hin]; [lia | apply H2, Hin].
Qed.

Lemma getTotalAllocationSize_bound (allocations : Plan) (lvr : LiveRange) :
  let region := a_at live_range_eqb default_region allocations lvr in
  u64 (offset region + size region) <= getTotalAllocationSize allocations.
Proof.
  unfold getTotalAllocationSize, a_at.
  pose proof (fold_max_ge (fun it : LiveRange * Region => u64 (offset (snd it) + size (snd it)))
                allocations 0) as [H0 Hall].
  destruct (a_find live_range_eqb allocations lvr) as [reg|] eqn:E.
  - exact (Hall (lvr, reg) (a_find_In _ _ _ E)).
  - simpl; unfold u64; rewrite Zmod_0_l; exact H0.
Qed.

(** Every region read from the plan for a placement satisfies
    [offset + size <= total_size] (uint64 arithmetic), where [total_size],
    stored on the storage node by [planMemory], is the maximum over the
    plan; the static check on that bound succeeds. *)
Theorem placements_within_total {X : Externals} (g : Graph) (allocations : Plan)
    (lvr : LiveRange) :
  let total_size := getTotalAllocationSize allocations in
  let region := a_at live_range_eqb default_region allocations lvr in
  attr_int (snd (insertAllocStorageNode g total_size)) "total_size" = total_size
  /\ u64 (offset region + size region) <= total_size
  /\ assert (u64 (offset region + size region) <=? total_size) = Some tt.
Proof.
  cbv zeta.
  pose proof (getTotalAllocationSize_bound allocations lvr) as Hb; cbv zeta in Hb.
  split; [|split; [exact Hb | unfold assert; rewrite (proj2 (Z.leb_le _ _) Hb); reflexivity]].
  unfold insertAllocStorageNode, create; simpl. reflexivity.
Qed.

(** C7 (the code does not do what the claim says): the claim requires
    both modes to assert [offset + size <= total_size] for every
    placement, but [insertPreAllocTensorNodes] never reads [total_size]
    (the read is commented out) and has no check.  With a storage node of
    total size 0 it places a 16 byte region without raising, where
    [insertAllocTensorNodes] throws on the same placement. *)
Lemma trace_mode_bound_not_asserted :
  attr_int (storage_of_total 0) "total_size" = 0
  /\ option_map (fun g => map n_attrs (g_nodes g))
       (insertPreAllocTensorNodes pre_alloc_graph (storage_of_total 0)
          [(traced_range, mkRegion 0 16)] [(add_frame, [traced_range])])
     = Some [[("size"%string, AInt 16); ("offset"%string, AInt 0)]; []; []]
  /\ @insertAllocTensorNodes (example_externals []) pre_alloc_graph (storage_of_total 0)
       [(traced_range, mkRegion 0 16)] [(traced_range, 2%nat)] = None.
Proof. split; [|split]; reflexivity. Qed.

(** ** Claims on the drivers *)

(** C8: [planMemory] with [NAIVE] returns the graph unchanged. *)
Theorem planMemory_naive_unchanged {X : Externals} (g : Graph) :
  option_map fst (planMemory g NAIVE) = Some g.
Proof.
  unfold planMemory.
  destruct (getManagedStuff g) as [[[out_nodes sizes] ranges] ws].
  destruct (collect_managed_live_ranges sizes ranges); reflexivity.
Qed.

Lemma flat_map_no_outputs (l : list OutNode) :
  (forall n, In n l -> on_outputs n = []) -> flat_map on_outputs l = [].
Proof.
  induction l as [|n l IH]; simpl; [reflexivity|].
  intros H; rewrite (H n (or_introl eq_refl)), IH; auto.
Qed.

Lemma managed_ranges_of_empty (live : list (nat * LiveRange)) :
  fold_left (fun (acc : list (nat * LiveRange)) (lvr : nat * LiveRange) =>
               if a_count Nat.eqb ([] : list (nat * Z)) (fst lvr)
               then a_insert Nat.eqb acc (fst lvr) (snd lvr) else acc) live [] = [].
Proof. induction live; simpl; auto. Qed.

(** C9: when no value is managed, each of the three strategies inserts an
    [AllocateStorage] node of total size 0 at the front of the graph and
    nothing else. *)
Theorem planMemory_empty_managed {X : Externals} (g : Graph) (strat : Strategy) :
  strat <> NAIVE ->
  snd (fst (getManagedValues g (GetAlwaysAliveValues g))) = [] ->
  exists storage ws,
    planMemory g strat = Some (mkGraph (storage :: g_nodes g) (g_fresh g + 1), ws)
    /\ n_kind storage = AllocateStorage
    /\ attr_int storage "total_size" = 0.
Proof.
  intros Hs Hm. unfold planMemory, getManagedStuff.
  destruct (getManagedValues g (GetAlwaysAliveValues g)) as [[out_nodes sizes] ws].
  simpl in Hm; subst sizes. rewrite managed_ranges_of_empty. simpl.
  assert (Hplan : run_heuristic strat []
                    (map (out_node_view [] []) out_nodes) = []).
  { destruct strat; try reflexivity.
    unfold run_heuristic, greedyByOperatorBreadth.
    rewrite flat_map_no_outputs; [reflexivity|].
    intros n Hin. apply (Permutation_in _ (sort_perm _ _)) in Hin.
    apply in_map_iff in Hin; destruct Hin as [m [<- _]].
    unfold out_node_view; simpl.
    induction (n_outputs m); simpl; auto. }
  destruct strat; [congruence | | |];
    rewrite Hplan; unfold insertAllocStorageNode, create; simpl;
    eexists; exists (ws ++ []); split; try reflexivity; split; reflexivity.
Qed.

Definition no_out_variant_graph : Graph := mkGraph [mul_node [0; 0]%nat 1] 2.

Lemma planMemory_empty_managed_witness :
  @snd _ _ (fst (@getManagedValues (example_externals []) no_out_variant_graph
                   (@GetAlwaysAliveValues (example_externals []) no_out_variant_graph))) = []
  /\ exists storage ws,
      @planMemory (example_externals []) no_out_variant_graph LINEAR_SCAN
        = Some (mkGraph (storage :: g_nodes no_out_variant_graph)
                        (g_fresh no_out_variant_graph + 1), ws)
      /\ n_kind storage = AllocateStorage
      /\ attr_int storage "total_size" = 0.
Proof.
  assert (H : @snd _ _ (fst (@getManagedValues (example_externals []) no_out_variant_graph
                   (@GetAlwaysAliveValues (example_externals []) no_out_variant_graph))) = [])
    by reflexivity.
  split; [exact H|].
  apply (@planMemory_empty_managed (example_externals []) no_out_variant_graph LINEAR_SCAN);
    [discriminate | exact H].
Defined.

(** C10: in trace mode, [GREEDY_BY_BREADTH] returns the graph unchanged
    whenever the event list is not empty and the extraction succeeds. *)
Theorem planMemoryWithTracing_breadth_noop {X : Externals} (g : Graph)
    (mem_events : list MemEvent) :
  planMemoryWithTracing g GREEDY_BY_BREADTH mem_events
  = match mem_events with
    | [] => None
    | _ => option_map (fun _ => g) (getLiveRangesFromMemEvents mem_events)
    end.
Proof.
  unfold planMemoryWithTracing; destruct mem_events as [|e evs]; [reflexivity|].
  simpl. destruct (getLiveRangesFromMemEvents (e :: evs)) as [[mlr lnh]|]; reflexivity.
Qed.

(** ** Claim on values with identical live ranges *)

(** C6 as stated fails: of the two values with live range [[0, 2]], only
    the producer of value [1] gains an input (the output [5] of the
    [AllocateTensor] node); the producer of value [2] keeps its inputs. *)
Lemma identical_ranges_second_producer_untouched :
  option_map (fun res => (map n_inputs (g_nodes (fst res)), snd res))
    (@planMemory (example_externals dup_liveness) dup_graph LINEAR_SCAN)
  = Some ([[]; [4%nat]; [0; 0; 5]%nat; [0; 0]%nat; [1; 2]%nat], [WOverlap 2 1]).
Proof. reflexivity. Qed.

Lemma a_count_existsb {V} (m : list (LiveRange * V)) r :
  a_count start_equiv m r = existsb (fun kv => start_equiv r (fst kv)) m.
Proof.
  unfold a_count; induction m as [|[k v] m IH]; simpl; auto.
  destruct (start_equiv r k); auto.
Qed.

Lemma existsb_perm {A} (f : A -> bool) l l' :
  Permutation l l' -> existsb f l = existsb f l'.
Proof.
  intros Hp; apply eq_true_iff_eq; rewrite !existsb_exists; split;
    intros [x [Hin Hfx]]; exists x; split; auto.
  - eapply Permutation_in; eauto.
  - eapply Permutation_in; [apply Permutation_sym|]; eauto.
Qed.

Lemma start_equiv_refl r : start_equiv r r = true.
Proof.
  unfold start_equiv, live_range_start_cmp; rewrite Z.ltb_irrefl; reflexivity.
Qed.

Lemma range_map_insert_keeps m k v r :
  a_count start_equiv m r = true -> a_count start_equiv (range_map_insert m k v) r = true.
Proof.
  unfold range_map_insert; destruct (a_count start_equiv m k); auto.
  rewrite !a_count_existsb; intros H.
  rewrite (existsb_perm _ _ _ (sort_insert_perm _ _ _)); simpl; rewrite H, orb_true_r; auto.
Qed.

Lemma range_map_insert_adds m r v : a_count start_equiv (range_map_insert m r v) r = true.
Proof.
  unfold range_map_insert; destruct (a_count start_equiv m r) eqn:E; auto.
  rewrite a_count_existsb, (existsb_perm _ _ _ (sort_insert_perm _ _ _)); simpl.
  rewrite start_equiv_refl; reflexivity.
Qed.

Lemma range_map_insert_values m k w v :
  In v (map snd (range_map_insert m k w)) -> In v (map snd m) \/ v = w.
Proof.
  unfold range_map_insert; destruct (a_count start_equiv m k); [auto|].
  intros H; apply (Permutation_in _ (Permutation_map snd (sort_insert_perm _ _ _))) in H.
  simpl in H; destruct H; auto.
Qed.

Lemma range_fold_keeps l acc r :
  a_count start_equiv (fst acc) r = true ->
  a_count start_equiv (fst (fold_left range_value_step l acc)) r = true.
Proof.
  revert acc; induction l as [|it l IH]; simpl; auto.
  intros [m ws] H; apply IH; simpl; apply range_map_insert_keeps, H.
Qed.

Lemma range_fold_warnings l acc w :
  In w (snd acc) -> In w (snd (fold_left range_value_step l acc)).
Proof.
  revert acc; induction l as [|it l IH]; simpl; auto.
  intros [m ws] H; apply IH; simpl in *.
  destruct (a_find start_equiv m (snd it)); auto; apply in_or_app; auto.
Qed.

Lemma range_fold_values l acc v :
  In v (map snd (fst (fold_left range_value_step l acc))) ->
  In v (map snd (fst acc)) \/ In v (map fst l).
Proof.
  revert acc; induction l as [|it l IH]; simpl; auto.
  intros [m ws] H. destruct (IH _ H) as [H1 | H1]; simpl in H1; [|auto].
  destruct (range_map_insert_values _ _ _ _ H1); auto.
Qed.

(** C6 (as amended): when two distinct values have the same live range,
    the later one in the iteration order of the value-to-range map gets
    an overlap warning and is not put in the range-to-value map that
    drives the insertion of [AllocateTensor] nodes, which still holds an
    entry for that range. *)
Theorem identical_ranges_later_value_dropped
    (pre mid post : list (nat * LiveRange)) (v1 v2 : nat) (r : LiveRange) :
  NoDup (map fst (pre ++ (v1, r) :: mid ++ (v2, r) :: post)) ->
  let (m, ws) := collect_range_values (pre ++ (v1, r) :: mid ++ (v2, r) :: post) in
  (exists v', In (WOverlap v2 v') ws)
  /\ ~ In v2 (map snd m)
  /\ a_count start_equiv m r = true.
Proof.
  intros Hnd.
  assert (Hl : map fst (pre ++ (v1, r) :: mid ++ (v2, r) :: post)
               = (map fst pre ++ v1 :: map fst mid) ++ v2 :: map fst post)
    by (rewrite !map_app; simpl; rewrite map_app, <- app_assoc; reflexivity).
  rewrite Hl in Hnd; apply NoDup_remove_2 in Hnd.
  assert (Npre : ~ In v2 (map fst pre)) by (intros H; apply Hnd; auto with datatypes).
  assert (N1 : v2 <> v1) by (intros ->; apply Hnd; auto with datatypes).
  assert (Nmid : ~ In v2 (map fst mid))
    by (intros H; apply Hnd; apply in_or_app; left; apply in_or_app; right; right; auto).
  assert (Npost : ~ In v2 (map fst post)) by (intros H; apply Hnd; auto with datatypes).
  unfold collect_range_values; rewrite fold_left_app; simpl; rewrite fold_left_app; simpl.
  set (s1 := fold_left range_value_step pre ([], [])).
  set (s2 := range_value_step s1 (v1, r)).
  set (s3 := fold_left range_value_step mid s2).
  assert (K3 : a_count start_equiv (fst s3) r = true).
  { apply range_fold_keeps. unfold s2; destruct s1; apply range_map_insert_adds. }
  assert (V3 : ~ In v2 (map snd (fst s3))).
  { intros H; apply range_fold_values in H; destruct H as [H | H]; [|tauto].
    unfold s2 in H; destruct s1 as [m1 w1] eqn:E1; simpl in H.
    apply range_map_insert_values in H; destruct H as [H | H]; [|tauto].
    change m1 with (fst (m1, w1)) in H; rewrite <- E1 in H; unfold s1 in H.
    apply range_fold_values in H; simpl in H; tauto. }
  destruct s3 as [m3 w3] eqn:E3; simpl in K3, V3.
  unfold range_value_step at 2; simpl.
  unfold a_count in K3. destruct (a_find start_equiv m3 r) as [v'|] eqn:F; [|discriminate].
  assert (Hm : range_map_insert m3 r v2 = m3)
    by (unfold range_map_insert, a_count; rewrite F; reflexivity).
  rewrite Hm.
  destruct (fold_left range_value_step post (m3, w3 ++ [WOverlap v2 v'])) as [m ws] eqn:E5.
  split; [|split].
  - exists v'. change ws with (snd (m, ws)); rewrite <- E5.
    apply range_fold_warnings; simpl; apply in_or_app; right; left; reflexivity.
  - intros H. change m with (fst (m, ws)) in H; rewrite <- E5 in H.
    apply range_fold_values in H; simpl in H; tauto.
  - change m with (fst (m, ws)); rewrite <- E5.
    apply range_fold_keeps; simpl; unfold a_count; rewrite F; reflexivity.
Qed.

Lemma identical_ranges_later_value_dropped_witness :
  NoDup (map fst ([] ++ (1%nat, mkLiveRange 0 2) :: [] ++ (2%nat, mkLiveRange 0 2) :: []))
  /\ let (m, ws) := collect_range_values
                      ([] ++ (1%nat, mkLiveRange 0 2) :: [] ++ (2%nat, mkLiveRange 0 2) :: []) in
     (exists v', In (WOverlap 2 v') ws) /\ ~ In 2%nat (map snd m)
     /\ a_count start_equiv m (mkLiveRange 0 2) = true.
Proof.
  assert (H : NoDup (map fst ([] ++ (1%nat, mkLiveRange 0 2) :: []
                              ++ (2%nat, mkLiveRange 0 2) :: [])))
    by (simpl; constructor; [simpl; intuition discriminate | constructor; [simpl; tauto | constructor]]).
  split; [exact H | exact (identical_ranges_later_value_dropped [] [] [] 1 2 (mkLiveRange 0 2) H)].
Defined.

(** ** The heuristics' input inside [planMemory] *)

Lemma a_insert_In {K V} (eqb : K -> K -> bool) (m : list (K * V)) k v e :
  In e (a_insert eqb m k v) -> In e m \/ e = (k, v).
Proof.
  unfold a_insert; destruct (a_count eqb m k); [auto|].
  intros H; apply in_app_or in H; destruct H as [H | [H | []]]; auto.
Qed.

Lemma a_assign_keys {V} (m : list (LiveRange * V)) k v :
  map fst (a_assign live_range_eqb m k v) = map fst m
  \/ map fst (a_assign live_range_eqb m k v) = map fst m ++ [k] /\ ~ In k (map fst m).
Proof.
  induction m as [|[k' v'] m IH]; simpl; [right; split; [reflexivity | tauto]|].
  destruct (live_range_eqb k k') eqn:E; simpl; [left; reflexivity|].
  destruct IH as [-> | [-> Hn]]; [left; reflexivity|].
  right; split; [reflexivity|]. intros [H | H]; [|tauto].
  subst; rewrite (proj2 (live_range_eqb_spec k k) eq_refl) in E; discriminate.
Qed.

Lemma a_find_nat_exists {V} (m : list (nat * V)) k :
  In k (map fst m) -> exists v, a_find Nat.eqb m k = Some v.
Proof.
  induction m as [|[k' v'] m IH]; simpl; [tauto|].
  intros H; destruct (Nat.eqb k k') eqn:E; [eauto|].
  destruct H as [H | H]; [subst; rewrite Nat.eqb_refl in E; discriminate | auto].
Qed.

Lemma a_find_nat_app {V} (m : list (nat * V)) k e v :
  a_find Nat.eqb m k = Some v -> a_find Nat.eqb (m ++ [e]) k = Some v.
Proof.
  induction m as [|[k' v'] m IH]; simpl; [discriminate|].
  destruct (Nat.eqb k k'); auto.
Qed.

Lemma a_find_nat_last {V} (m : list (nat * V)) k v :
  a_find Nat.eqb m k = None -> a_find Nat.eqb (m ++ [(k, v)]) k = Some v.
Proof.
  induction m as [|[k' v'] m IH]; simpl; [rewrite Nat.eqb_refl; reflexivity|].
  destruct (Nat.eqb k k'); [discriminate | auto].
Qed.

(** Every key of the managed map is the final range of a managed value,
    and the keys are distinct. *)
Lemma collect_managed_live_ranges_keys (sizes : list (nat * Z)) (l : list (nat * Z))
    (acc : list (LiveRange * Z) * list (nat * LiveRange)) :
  incl (map fst l) (map fst sizes) ->
  NoDup (map fst (fst acc)) ->
  (forall r, In r (map fst (fst acc)) ->
     exists v, In v (map fst sizes) /\ a_find Nat.eqb (snd acc) v = Some r) ->
  let res := fold_left (fun (acc : list (LiveRange * Z) * list (nat * LiveRange)) (item : nat * Z) =>
               let (mlr, rs) := acc in
               let r := a_at Nat.eqb default_live_range rs (fst item) in
               let rs' := if a_count Nat.eqb rs (fst item) then rs
                          else rs ++ [(fst item, default_live_range)] in
               (a_assign live_range_eqb mlr r (snd item), rs')) l acc in
  NoDup (map fst (fst res))
  /\ forall r, In r (map fst (fst res)) ->
       exists v, In v (map fst sizes) /\ a_find Nat.eqb (snd res) v = Some r.
Proof.
  revert acc; induction l as [|[v s] l IH]; simpl; [auto|].
  intros [mlr rs] Hincl Hnd Hk; simpl in Hnd, Hk.
  apply IH; [intros x Hx; apply Hincl; right; exact Hx | |].
  - simpl. destruct (a_assign_keys mlr (a_at Nat.eqb default_live_range rs v) s)
      as [-> | [-> Hn]]; [exact Hnd|].
    apply NoDup_app; [exact Hnd | repeat constructor; simpl; tauto |].
    intros x Hx [<- | []]; tauto.
  - simpl. set (r0 := a_at Nat.eqb default_live_range rs v).
    assert (Hstay : forall v' r', a_find Nat.eqb rs v' = Some r' ->
               a_find Nat.eqb (if a_count Nat.eqb rs v then rs
                               else rs ++ [(v, default_live_range)]) v' = Some r').
    { intros v' r' H; destruct (a_count Nat.eqb rs v); [exact H | apply a_find_nat_app, H]. }
    intros r Hr.
    destruct (a_assign_keys mlr r0 s) as [E | [E _]]; rewrite E in Hr.
    + destruct (Hk r Hr) as [v' [Hv' Hf]]; eauto.
    + apply in_app_or in Hr; destruct Hr as [Hr | [<- | []]].
      * destruct (Hk r Hr) as [v' [Hv' Hf]]; eauto.
      * exists v; split; [apply Hincl; left; reflexivity|].
        unfold r0, a_at, a_count; destruct (a_find Nat.eqb rs v) eqn:F; [exact F|].
        apply a_find_nat_last, F.
Qed.

Lemma manage_outputs_from {X : Externals} aa n l acc e :
  In e (fst (fold_left (manage_output aa n) l acc)) -> In e (fst acc) \/ In (fst e) l.
Proof.
  revert acc; induction l as [|v l IH]; simpl; [auto|].
  intros [m ws] H. destruct (IH _ H) as [H1 | H1]; [|auto].
  unfold manage_output in H1.
  destruct (existsb (Nat.eqb v) aa); [auto|].
  destruct (computeStorageSize v) as [[sz|] w]; simpl in H1.
  - destruct (0 <? sz); [|destruct (isOptimizableContainerType n); auto].
    simpl in H1; destruct (a_insert_In _ _ _ _ _ H1) as [H2 | ->]; auto.
  - destruct (isOptimizableContainerType n); auto.
Qed.

Lemma getManagedValues_outputs {X : Externals} (g : Graph) aa v s :
  In (v, s) (snd (fst (getManagedValues g aa))) ->
  exists n, In n (fst (fst (getManagedValues g aa))) /\ In v (n_outputs n).
Proof.
  unfold getManagedValues.
  assert (Hgen : forall ns (acc : list Node * list (nat * Z) * list Warning),
            (forall v s, In (v, s) (snd (fst acc)) ->
               exists n, In n (fst (fst acc)) /\ In v (n_outputs n)) ->
            forall v s, In (v, s) (snd (fst (fold_left (manage_node aa) ns acc))) ->
               exists n, In n (fst (fst (fold_left (manage_node aa) ns acc)))
                         /\ In v (n_outputs n)).
  { induction ns as [|n ns IH]; simpl; [auto|].
    intros [[outs m] ws] Hacc; apply IH; simpl in *.
    unfold manage_node; destruct (hasOutVariant n); [|exact Hacc].
    destruct (fold_left (manage_output aa n) (n_outputs n) (m, ws)) as [m' ws'] eqn:E.
    simpl; intros v' s' Hin.
    assert (H : In (v', s') (fst (fold_left (manage_output aa n) (n_outputs n) (m, ws))))
      by (rewrite E; exact Hin).
    destruct (manage_outputs_from _ _ _ _ _ H) as [H1 | H1].
    - destruct (Hacc v' s' H1) as [n' [Hn' Ho]].
      exists n'; split; [apply in_or_app; left; exact Hn' | exact Ho].
    - exists n; split; [apply in_or_app; right; left; reflexivity | exact H1]. }
  apply Hgen; simpl; tauto.
Qed.

(** The map [planMemory] builds has distinct keys, and each of its
    ranges is an output range of an out node. *)
Lemma planMemory_plan_inputs_ok {X : Externals} (g : Graph) :
  let (managed, outs) := planMemory_plan_inputs g in
  NoDup (map fst managed) /\ covers outs managed.
Proof.
  unfold planMemory_plan_inputs, getManagedStuff.
  pose proof (getManagedValues_outputs g (GetAlwaysAliveValues g)) as Hout.
  destruct (getManagedValues g (GetAlwaysAliveValues g)) as [[out_nodes sizes] ws].
  simpl in Hout.
  set (ranges := fold_left _ (GetLiveness g) []).
  unfold collect_managed_live_ranges.
  pose proof (collect_managed_live_ranges_keys sizes sizes ([], ranges)
                (incl_refl _) (NoDup_nil _) (fun r H => False_ind _ H)) as [Hnd Hk].
  destruct (fold_left _ sizes ([], ranges)) as [mlr rs] eqn:E.
  simpl in Hnd, Hk. split; [exact Hnd|].
  intros r s Hin.
  destruct (Hk r (in_map fst _ (r, s) Hin)) as [v [Hv Hf]].
  apply in_map_iff in Hv; destruct Hv as [[v' sv] [Hv' Hvin]]; simpl in Hv'; subst v'.
  destruct (Hout v sv Hvin) as [n [Hn Hvn]].
  exists (out_node_view sizes rs n); split; [apply in_map, Hn|].
  unfold out_node_view; simpl.
  replace r with (a_at Nat.eqb default_live_range rs v) by (unfold a_at; rewrite Hf; reflexivity).
  apply in_map, filter_In; split; [exact Hvn|].
  unfold a_count; destruct (a_find_nat_exists sizes v (in_map fst _ _ Hvin)) as [x ->].
  reflexivity.
Qed.

(** ** Claim on the packing heuristics *)

(** C1: for each of LinearScan, GreedyBySize and GreedyByBreadth, and
    every managed map (distinct keys, as a map has), the plan holds every
    input range with a region of the input size, and two distinct
    overlapping ranges get regions that do not collide.  The breadth
    heuristic places the outputs of the out nodes, which must carry every
    managed range.  The map and the out nodes [planMemory] builds from a
    graph meet both conditions. *)
Theorem heuristics_plan_correct (strat : Strategy) :
  strat <> NAIVE ->
  (forall (managed : ManagedRanges) (outs : list OutNode),
     NoDup (map fst managed) ->
     (strat = GREEDY_BY_BREADTH -> covers outs managed) ->
     plan_ok managed (run_heuristic strat managed outs))
  /\ (forall (X : Externals) (g : Graph),
        let (managed, outs) := planMemory_plan_inputs g in
        plan_ok managed (run_heuristic strat managed outs)).
Proof.
  intros Hs.
  assert (Hgen : forall (managed : ManagedRanges) (outs : list OutNode),
             NoDup (map fst managed) ->
             (strat = GREEDY_BY_BREADTH -> covers outs managed) ->
             plan_ok managed (run_heuristic strat managed outs)).
  { intros managed outs Hnd Hcov; destruct strat; simpl.
    - congruence.
    - apply linearScanHeuristic_ok, Hnd.
    - apply greedyBySize_ok, Hnd.
    - apply greedyByOperatorBreadth_ok; auto. }
  split; [exact Hgen|].
  intros X g. pose proof (planMemory_plan_inputs_ok g) as Hin.
  destruct (planMemory_plan_inputs g) as [managed outs].
  destruct Hin as [Hnd Hcov]. apply Hgen; auto.
Qed.

Lemma heuristics_plan_correct_witness :
  GREEDY_BY_BREADTH <> NAIVE
  /\ plan_ok spec_ranges (run_heuristic GREEDY_BY_BREADTH spec_ranges spec_out_nodes).
Proof.
  assert (Hs : GREEDY_BY_BREADTH <> NAIVE) by discriminate.
  split; [exact Hs|].
  apply (proj1 (heuristics_plan_correct GREEDY_BY_BREADTH Hs)).
  - simpl. repeat constructor; simpl; intuition discriminate.
  - intros _ r s Hin; simpl in Hin.
    destruct Hin as [H | [H | [H | [H | []]]]]; inversion H; subst.
    + exists (mkOutNode 0 [mkLiveRange 0 3]); split; simpl;
        repeat (first [left; reflexivity | right]).
    + exists (mkOutNode 1 [mkLiveRange 1 2]); split; simpl;
        repeat (first [left; reflexivity | right]).
    + exists (mkOutNode 4 [mkLiveRange 4 6]); split; simpl;
        repeat (first [left; reflexivity | right]).
    + exists (mkOutNode 5 [mkLiveRange 5 7]); split; simpl;
        repeat (first [left; reflexivity | right]).
Defined.


(** * Further properties of the pass *)

(** ** Association lists with a decidable key equality *)

Section AssocFacts.
Context {K V : Type} (eqb : K -> K -> bool).
Hypothesis eqb_spec : forall x y, eqb x y = true <-> x = y.

Lemma assoc_eqb_refl x : eqb x x = true.
Proof. apply eqb_spec; reflexivity. Qed.

Lemma assoc_eqb_sym x y : eqb x y = eqb y x.
Proof.
  destruct (eqb x y) eqn:E, (eqb y x) eqn:F; auto.
  - apply eqb_spec in E; subst; rewrite assoc_eqb_refl in F; discriminate.
  - apply eqb_spec in F; subst; rewrite assoc_eqb_refl in E; discriminate.
Qed.

Lemma assoc_find_app (m m' : list (K * V)) k :
  a_find eqb (m ++ m') k
  = match a_find eqb m k with Some x => Some x | None => a_find eqb m' k end.
Proof.
  induction m as [|[k' v'] m IH]; simpl; [reflexivity|].
  destruct (eqb k k'); auto.
Qed.

Lemma assoc_find_none (m : list (K * V)) k :
  a_find eqb m k = None -> ~ In k (map fst m).
Proof.
  induction m as [|[k' v'] m IH]; simpl; [tauto|].
  destruct (eqb k k') eqn:E; [discriminate|].
  intros H [<- | Hin]; [rewrite assoc_eqb_refl in E; discriminate | exact (IH H Hin)].
Qed.

Lemma assoc_find_in (m : list (K * V)) k v :
  a_find eqb m k = Some v -> In (k, v) m.
Proof.
  induction m as [|[k' v'] m IH]; simpl; [discriminate|].
  destruct (eqb k k') eqn:E; [|auto].
  apply eqb_spec in E; subst; intros H; inversion H; auto.
Qed.

Lemma assoc_find_insert (m : list (K * V)) k v k' :
  a_find eqb (a_insert eqb m k v) k'
  = if eqb k' k then match a_find eqb m k with Some x => Some x | None => Some v end
    else a_find eqb m k'.
Proof.
  unfold a_insert, a_count.
  destruct (a_find eqb m k) as [x|] eqn:E; simpl.
  - destruct (eqb k' k) eqn:F; [apply eqb_spec in F; subst; exact E | reflexivity].
  - rewrite assoc_find_app; simpl.
    destruct (eqb k' k) eqn:F.
    + apply eqb_spec in F; subst; rewrite E; simpl; rewrite ?assoc_eqb_refl; reflexivity.
    + destruct (a_find eqb m k'); simpl; rewrite ?F; reflexivity.
Qed.

Lemma assoc_find_assign (m : list (K * V)) k v k' :
  a_find eqb (a_assign eqb m k v) k' = if eqb k' k then Some v else a_find eqb m k'.
Proof.
  induction m as [|[k1 v1] m IH]; simpl; [reflexivity|].
  destruct (eqb k k1) eqn:E; simpl.
  - apply eqb_spec in E; subst; destruct (eqb k' k1); reflexivity.
  - rewrite IH. destruct (eqb k' k1) eqn:F; [|reflexivity].
    destruct (eqb k' k) eqn:G; [|reflexivity].
    apply eqb_spec in F, G; subst; rewrite assoc_eqb_refl in E; discriminate.
Qed.

Lemma assoc_insert_nodup (m : list (K * V)) k v :
  NoDup (map fst m) -> NoDup (map fst (a_insert eqb m k v)).
Proof.
  unfold a_insert, a_count; destruct (a_find eqb m k) eqn:E; [auto|].
  intros H; rewrite map_app; simpl.
  apply NoDup_app; [exact H | repeat constructor; simpl; tauto |].
  intros x Hx [<- | []]; exact (assoc_find_none m _ E Hx).
Qed.

Lemma assoc_assign_nodup (m : list (K * V)) k v :
  NoDup (map fst m) -> NoDup (map fst (a_assign eqb m k v)).
Proof.
  induction m as [|[k1 v1] m IH]; simpl; [intros; repeat constructor; simpl; tauto|].
  intros Hnd; inversion Hnd as [|? ? Hn Hnd']; subst.
  destruct (eqb k k1) eqn:E; simpl; [constructor; auto|].
  constructor; [|auto].
  intros Hin; assert (Hk : In k1 (map fst m) \/ k1 = k).
  { clear IH Hnd Hnd' Hn E; induction m as [|[k2 v2] m IH2]; simpl in *.
    - destruct Hin as [<- | []]; auto.
    - destruct (eqb k k2) eqn:F; simpl in Hin; [destruct Hin; auto|].
      destruct Hin as [<- | Hin]; auto; destruct (IH2 Hin); auto. }
  destruct Hk as [Hk | ->]; [tauto | rewrite assoc_eqb_refl in E; discriminate].
Qed.
End AssocFacts.

Lemma frame_node_id_eqb_spec a b : frame_node_id_eqb a b = true <-> a = b.
Proof.
  destruct a as [t1 s1 h1], b as [t2 s2 h2]; unfold frame_node_id_eqb; simpl.
  rewrite !andb_true_iff, Z.eqb_eq, !String.eqb_eq; split.
  - intros [[-> ->] ->]; reflexivity.
  - intros H; inversion H; auto.
Qed.

(** ** The trace extractor accepts only the empty trace *)

Lemma trace_step_free_empty st e :
  allocs st = [] -> ev_type e = Free -> trace_step st e = None.
Proof. intros Ha Ht; unfold trace_step; rewrite Ht, Ha; reflexivity. Qed.

Lemma getLiveRangesFromMemEvents_cases (mem_events : list MemEvent) :
  getLiveRangesFromMemEvents mem_events
  = match mem_events with [] => Some ([], []) | _ => None end.
Proof.
  destruct mem_events as [|e evs]; [reflexivity|].
  unfold getLiveRangesFromMemEvents.
  destruct (ev_type e) eqn:Et.
  - destruct (trace_sweep empty_trace_state (e :: evs)) as [st|] eqn:Hs; [|reflexivity].
    assert (Hne : allocs st <> []).
    { apply (trace_sweep_allocs _ _ _ Hs); right; exists e; split; [left|]; auto. }
    destruct (allocs st); [congruence | reflexivity].
  - simpl; rewrite (trace_step_free_empty empty_trace_state e eq_refl Et); reflexivity.
Qed.

(** [getLiveRangesFromMemEvents] returns (two empty maps) for the empty
    event list and raises for every other list: a first [Free] finds no
    open allocation, and an [Allocate] leaves its entry in [allocs]. *)
Theorem getLiveRangesFromMemEvents_only_empty (mem_events : list MemEvent) :
  getLiveRangesFromMemEvents mem_events
  = match mem_events with [] => Some ([], []) | _ => None end.
Proof. apply getLiveRangesFromMemEvents_cases. Qed.

(** [planMemoryWithTracing] raises for every graph, strategy and event
    list: the empty list fails its first assertion, any other list the
    extractor. *)
Theorem planMemoryWithTracing_always_raises {X : Externals} (g : Graph) (strat : Strategy)
    (mem_events : list MemEvent) :
  planMemoryWithTracing g strat mem_events = None.
Proof.
  unfold planMemoryWithTracing.
  destruct mem_events as [|e evs]; [reflexivity|].
  simpl (assert _); rewrite getLiveRangesFromMemEvents_cases; reflexivity.
Qed.

(** ** [getTotalAllocationSize] *)

Lemma fold_max_attained {A} (f : A -> Z) (l : list A) (t : Z) :
  fold_left (fun acc it => Z.max acc (f it)) l t = t
  \/ exists it, In it l /\ fold_left (fun acc it => Z.max acc (f it)) l t = f it.
Proof.
  revert t; induction l as [|x l IH]; simpl; [auto|].
  intros t; destruct (IH (Z.max t (f x))) as [E | [it [Hin E]]].
  - rewrite E; destruct (Z.max_spec t (f x)) as [[_ M] | [_ M]]; rewrite M; [|auto].
    right; exists x; auto.
  - right; exists it; auto.
Qed.

Lemma getTotalAllocationSize_lub (allocations : Plan) :
  (forall it, In it allocations ->
     u64 (offset (snd it) + size (snd it)) <= getTotalAllocationSize allocations)
  /\ ((allocations = [] /\ getTotalAllocationSize allocations = 0)
      \/ exists it, In it allocations
                    /\ getTotalAllocationSize allocations = u64 (offset (snd it) + size (snd it))).
Proof.
  unfold getTotalAllocationSize.
  pose proof (fold_max_ge (fun it : LiveRange * Region => u64 (offset (snd it) + size (snd it)))
                allocations 0) as [H0 Hall].
  split; [exact Hall|].
  destruct allocations as [|a rest]; [left; split; reflexivity|right].
  destruct (fold_max_attained (fun it : LiveRange * Region => u64 (offset (snd it) + size (snd it)))
              (a :: rest) 0) as [E | Hex]; [|exact Hex].
  exists a; split; [left; reflexivity|].
  pose proof (Hall a (or_introl eq_refl)) as Ha.
  assert (0 <= u64 (offset (snd a) + size (snd a)))
    by (unfold u64; apply Z.mod_pos_bound; lia).
  lia.
Qed.

(** [getTotalAllocationSize] is the least upper bound of the uint64 ends
    [offset + size] of the plan: it bounds every region and equals the
    end of one of them, or is [0] for the empty plan. *)
Theorem getTotalAllocationSize_max (allocations : Plan) :
  (forall it, In it allocations ->
     u64 (offset (snd it) + size (snd it)) <= getTotalAllocationSize allocations)
  /\ ((allocations = [] /\ getTotalAllocationSize allocations = 0)
      \/ exists it, In it allocations
                    /\ getTotalAllocationSize allocations = u64 (offset (snd it) + size (snd it))).
Proof. apply getTotalAllocationSize_lub. Qed.

(** The iteration order of the [unordered_map] does not matter: two
    plans holding the same entries in another order have the same total. *)
Theorem getTotalAllocationSize_order_independent (allocations allocations' : Plan) :
  Permutation allocations allocations' ->
  getTotalAllocationSize allocations = getTotalAllocationSize allocations'.
Proof.
  intros HP.
  destruct (getTotalAllocationSize_lub allocations) as [B1 A1].
  destruct (getTotalAllocationSize_lub allocations') as [B2 A2].
  assert (N1 : 0 <= getTotalAllocationSize allocations).
  { destruct A1 as [[_ ->] | [it [_ ->]]]; [lia | unfold u64; apply Z.mod_pos_bound; lia]. }
  assert (N2 : 0 <= getTotalAllocationSize allocations').
  { destruct A2 as [[_ ->] | [it [_ ->]]]; [lia | unfold u64; apply Z.mod_pos_bound; lia]. }
  apply Z.le_antisymm.
  - destruct A1 as [[_ ->] | [it [Hin ->]]]; [exact N2|].
    apply B2, (Permutation_in _ HP), Hin.
  - destruct A2 as [[_ ->] | [it [Hin ->]]]; [exact N1|].
    apply B1, (Permutation_in _ (Permutation_sym HP)), Hin.
Qed.

Lemma getTotalAllocationSize_order_independent_witness :
  Permutation [(mkLiveRange 0 1, mkRegion 0 8); (mkLiveRange 2 3, mkRegion 8 4)]
              [(mkLiveRange 2 3, mkRegion 8 4); (mkLiveRange 0 1, mkRegion 0 8)]
  /\ getTotalAllocationSize [(mkLiveRange 0 1, mkRegion 0 8); (mkLiveRange 2 3, mkRegion 8 4)]
     = getTotalAllocationSize [(mkLiveRange 2 3, mkRegion 8 4); (mkLiveRange 0 1, mkRegion 0 8)].
Proof.
  assert (HP : Permutation [(mkLiveRange 0 1, mkRegion 0 8); (mkLiveRange 2 3, mkRegion 8 4)]
                           [(mkLiveRange 2 3, mkRegion 8 4); (mkLiveRange 0 1, mkRegion 0 8)])
    by apply perm_swap.
  split; [exact HP | apply (getTotalAllocationSize_order_independent _ _ HP)].
Defined.

(** ** [computeStorageSize] *)

(** [computeStorageSize] either returns no size and emits exactly one
    warning, or returns a uint64 size and emits none. *)
Theorem computeStorageSize_warns_once {X : Externals} (v : nat) :
  (fst (computeStorageSize v) = None <-> List.length (snd (computeStorageSize v)) = 1%nat)
  /\ (forall s, fst (computeStorageSize v) = Some s ->
        0 <= s < 2 ^ 64 /\ snd (computeStorageSize v) = []).
Proof.
  unfold computeStorageSize.
  destruct (value_type v) as [ttp|]; [|simpl; split; [tauto | discriminate]].
  destruct (tt_scalar_type ttp) as [st|]; [|simpl; split; [tauto | discriminate]].
  destruct (tt_sizes ttp); [|simpl; split; [tauto | discriminate]].
  destruct (tt_numel ttp); simpl; [|split; [tauto | discriminate]].
  split; [split; discriminate|].
  intros s H; inversion H; subst; split; [|reflexivity].
  unfold u64; apply Z.mod_pos_bound; lia.
Qed.

(** ** [getManagedValues] *)

Lemma manage_output_find {X : Externals} aa n (acc : list (nat * Z) * list Warning) o :
  NoDup (map fst (fst acc)) ->
  (forall v s, a_find Nat.eqb (fst acc) v = Some s ->
     ~ In v aa /\ fst (computeStorageSize v) = Some s /\ 0 < s) ->
  NoDup (map fst (fst (manage_output aa n acc o)))
  /\ forall v s, a_find Nat.eqb (fst (manage_output aa n acc o)) v = Some s <->
       a_find Nat.eqb (fst acc) v = Some s
       \/ (v = o /\ ~ In v aa /\ fst (computeStorageSize v) = Some s /\ 0 < s).
Proof.
  destruct acc as [m ws]; simpl; intros Hnd Hok; unfold manage_output.
  destruct (existsb (Nat.eqb o) aa) eqn:Ea.
  - simpl; split; [exact Hnd|]. intros v s; split; [auto|].
    intros [H | [-> [Hn _]]]; [exact H|]. exfalso; apply Hn.
    apply existsb_exists in Ea; destruct Ea as [x [Hx Hxe]].
    apply Nat.eqb_eq in Hxe; subst; exact Hx.
  - assert (Hna : ~ In o aa).
    { intros Hin; rewrite (proj2 (existsb_exists _ _) (ex_intro _ o (conj Hin (Nat.eqb_refl o))))
        in Ea; discriminate. }
    destruct (computeStorageSize o) as [sz0 w] eqn:Ec.
    assert (Hcs : fst (computeStorageSize o) = sz0) by (rewrite Ec; reflexivity).
    destruct sz0 as [sz|].
    + destruct (0 <? sz) eqn:Ep.
      * simpl; split; [apply (assoc_insert_nodup Nat.eqb Nat.eqb_eq), Hnd|].
        intros v s; rewrite (assoc_find_insert Nat.eqb Nat.eqb_eq).
        destruct (Nat.eqb v o) eqn:Evo.
        -- apply Nat.eqb_eq in Evo; subst v.
           destruct (a_find Nat.eqb m o) as [x|] eqn:F.
           ++ destruct (Hok o x F) as [_ [Hx _]]; split; [auto|].
              intros [H | [_ [_ [Hs _]]]]; [exact H | congruence].
           ++ split.
              ** intros H; inversion H; subst; right.
                 split; [reflexivity | split; [exact Hna | split; [exact Hcs | apply Z.ltb_lt, Ep]]].
              ** intros [H | [_ [_ [Hs _]]]]; [discriminate | congruence].
        -- apply Nat.eqb_neq in Evo. split; [auto|]. intros [H | [E _]]; [exact H | congruence].
      * apply Z.ltb_ge in Ep.
        destruct (isOptimizableContainerType n); simpl; (split; [exact Hnd|]);
          intros v s; (split; [auto|]); intros [H | [-> [_ [Hs Hp]]]]; try exact H;
          rewrite Hcs in Hs; inversion Hs; subst; lia.
    + destruct (isOptimizableContainerType n); simpl; (split; [exact Hnd|]);
        intros v s; (split; [auto|]); intros [H | [-> [_ [Hs _]]]]; try exact H;
        rewrite Hcs in Hs; discriminate.
Qed.

Lemma manage_outputs_find {X : Externals} aa n os (acc : list (nat * Z) * list Warning) :
  NoDup (map fst (fst acc)) ->
  (forall v s, a_find Nat.eqb (fst acc) v = Some s ->
     ~ In v aa /\ fst (computeStorageSize v) = Some s /\ 0 < s) ->
  NoDup (map fst (fst (fold_left (manage_output aa n) os acc)))
  /\ forall v s, a_find Nat.eqb (fst (fold_left (manage_output aa n) os acc)) v = Some s <->
       a_find Nat.eqb (fst acc) v = Some s
       \/ (In v os /\ ~ In v aa /\ fst (computeStorageSize v) = Some s /\ 0 < s).
Proof.
  revert acc; induction os as [|o os IH]; simpl; intros acc Hnd Hok.
  - split; [exact Hnd|]. intros v s; split; [auto|]. intros [H | [[] _]]; exact H.
  - destruct (manage_output_find aa n acc o Hnd Hok) as [Hnd1 Hf1].
    assert (Hok1 : forall v s, a_find Nat.eqb (fst (manage_output aa n acc o)) v = Some s ->
                     ~ In v aa /\ fst (computeStorageSize v) = Some s /\ 0 < s).
    { intros v s H; apply Hf1 in H; destruct H as [H | [_ H]]; [exact (Hok v s H) | exact H]. }
    destruct (IH _ Hnd1 Hok1) as [Hnd2 Hf2]; split; [exact Hnd2|].
    intros v s; rewrite Hf2, Hf1; split.
    + intros [[H | [-> H]] | [Hin H]]; [left; exact H | right; split; [left|]; auto | right; auto].
    + intros [H | [[<- | Hin] H]]; [left; left; exact H | left; right; auto | right; auto].
Qed.

Lemma manage_nodes_find {X : Externals} aa ns (acc : list Node * list (nat * Z) * list Warning) :
  NoDup (map fst (snd (fst acc))) ->
  (forall v s, a_find Nat.eqb (snd (fst acc)) v = Some s ->
     ~ In v aa /\ fst (computeStorageSize v) = Some s /\ 0 < s) ->
  let res := fold_left (manage_node aa) ns acc in
  fst (fst res) = fst (fst acc) ++ filter hasOutVariant ns
  /\ NoDup (map fst (snd (fst res)))
  /\ forall v s, a_find Nat.eqb (snd (fst res)) v = Some s <->
       a_find Nat.eqb (snd (fst acc)) v = Some s
       \/ ((exists n, In n ns /\ hasOutVariant n = true /\ In v (n_outputs n))
           /\ ~ In v aa /\ fst (computeStorageSize v) = Some s /\ 0 < s).
Proof.
  revert acc; induction ns as [|n ns IH]; simpl; intros [[outs m] ws] Hnd Hok; simpl in *.
  - split; [rewrite app_nil_r; reflexivity | split; [exact Hnd|]].
    intros v s; split; [auto|]. intros [H | [[n [[] _]] _]]; exact H.
  - unfold manage_node at 2; destruct (hasOutVariant n) eqn:Eh.
    + destruct (manage_outputs_find aa n (n_outputs n) (m, ws) Hnd Hok) as [Hnd1 Hf1].
      destruct (fold_left (manage_output aa n) (n_outputs n) (m, ws)) as [m' ws'] eqn:Ef.
      simpl in Hnd1, Hf1.
      assert (Hok1 : forall v s, a_find Nat.eqb m' v = Some s ->
                       ~ In v aa /\ fst (computeStorageSize v) = Some s /\ 0 < s).
      { intros v s H; apply Hf1 in H; destruct H as [H | [_ H]]; [exact (Hok v s H) | exact H]. }
      destruct (IH (outs ++ [n], m', ws') Hnd1 Hok1) as [Ho [Hnd2 Hf2]]; simpl in *.
      split; [rewrite Ho, <- app_assoc; reflexivity | split; [exact Hnd2|]].
      intros v s; rewrite Hf2, Hf1; split.
      * intros [[H | [Hin H]] | [[n' [Hn' [Hh Hv]]] H]]; [left; exact H| |].
        -- right; split; [exists n; auto | exact H].
        -- right; split; [exists n'; auto | exact H].
      * intros [H | [[n' [[<- | Hn'] [Hh Hv]]] H]]; [left; left; exact H | left; right; auto|].
        right; split; [exists n'; auto | exact H].
    + destruct (IH (outs, m, ws) Hnd Hok) as [Ho [Hnd2 Hf2]]; simpl in *.
      split; [exact Ho | split; [exact Hnd2|]].
      intros v s; rewrite Hf2; split.
      * intros [H | [[n' [Hn' H1]] H]]; [left; exact H | right; split; [exists n'; auto | exact H]].
      * intros [H | [[n' [[<- | Hn'] [Hh Hv]]] H]]; [left; exact H | congruence |].
        right; split; [exists n'; auto | exact H].
Qed.

Lemma getManagedValues_facts {X : Externals} (g : Graph) (always_alive_values : list nat) :
  let '(out_nodes, managed, _) := getManagedValues g always_alive_values in
  out_nodes = filter hasOutVariant (g_nodes g)
  /\ NoDup (map fst managed)
  /\ forall v s, a_find Nat.eqb managed v = Some s <->
       (exists n, In n (g_nodes g) /\ hasOutVariant n = true /\ In v (n_outputs n))
       /\ ~ In v always_alive_values /\ fst (computeStorageSize v) = Some s /\ 0 < s.
Proof.
  unfold getManagedValues.
  destruct (manage_nodes_find always_alive_values (g_nodes g) ([], [], [])
              (NoDup_nil _) (fun v s (H : a_find Nat.eqb [] v = Some s) => False_ind _ (eq_ind None (fun o => match o with None => True | Some _ => False end) I _ H)))
    as [Ho [Hnd Hf]].
  destruct (fold_left (manage_node always_alive_values) (g_nodes g) ([], [], []))
    as [[outs m] ws]; simpl in *.
  split; [exact Ho | split; [exact Hnd|]].
  intros v s; rewrite Hf; split; [intros [H | H]; [discriminate | exact H] | auto].
Qed.

(** [getManagedValues] returns the nodes that have an out variant, in
    graph order, and a map with distinct keys holding exactly the outputs
    of those nodes that are not always alive and have a positive storage
    size, each with that size. *)
Theorem getManagedValues_spec {X : Externals} (g : Graph) (always_alive_values : list nat) :
  let '(out_nodes, managed, _) := getManagedValues g always_alive_values in
  out_nodes = filter hasOutVariant (g_nodes g)
  /\ NoDup (map fst managed)
  /\ forall v s, a_find Nat.eqb managed v = Some s <->
       (exists n, In n (g_nodes g) /\ hasOutVariant n = true /\ In v (n_outputs n))
       /\ ~ In v always_alive_values /\ fst (computeStorageSize v) = Some s /\ 0 < s.
Proof. apply getManagedValues_facts. Qed.

(** ** [getManagedStuff] *)

Lemma managed_ranges_fold (sizes : list (nat * Z)) (live acc : list (nat * LiveRange)) v :
  a_find Nat.eqb
    (fold_left (fun (acc : list (nat * LiveRange)) (lvr : nat * LiveRange) =>
                  if a_count Nat.eqb sizes (fst lvr)
                  then a_insert Nat.eqb acc (fst lvr) (snd lvr) else acc) live acc) v
  = match a_find Nat.eqb acc v with
    | Some r => Some r
    | None => if a_count Nat.eqb sizes v then a_find Nat.eqb live v else None
    end.
Proof.
  revert acc; induction live as [|[k r0] live IH]; intros acc; simpl.
  - destruct (a_find Nat.eqb acc v); [reflexivity|]. destruct (a_count Nat.eqb sizes v); reflexivity.
  - rewrite IH. destruct (a_count Nat.eqb sizes k) eqn:Ek.
    + rewrite (assoc_find_insert Nat.eqb Nat.eqb_eq).
      destruct (Nat.eqb v k) eqn:E.
      * apply Nat.eqb_eq in E; subst v; rewrite Ek.
        destruct (a_find Nat.eqb acc k); reflexivity.
      * destruct (a_find Nat.eqb acc v); [reflexivity|].
        destruct (a_count Nat.eqb sizes v); reflexivity.
    + destruct (a_find Nat.eqb acc v); [reflexivity|].
      destruct (Nat.eqb v k) eqn:E; [|reflexivity].
      apply Nat.eqb_eq in E; subst v; rewrite Ek; reflexivity.
Qed.

Lemma managed_ranges_nodup (sizes : list (nat * Z)) (live acc : list (nat * LiveRange)) :
  NoDup (map fst acc) ->
  NoDup (map fst
    (fold_left (fun (acc : list (nat * LiveRange)) (lvr : nat * LiveRange) =>
                  if a_count Nat.eqb sizes (fst lvr)
                  then a_insert Nat.eqb acc (fst lvr) (snd lvr) else acc) live acc)).
Proof.
  revert acc; induction live as [|[k r0] live IH]; intros acc H; simpl; [exact H|].
  apply IH; destruct (a_count Nat.eqb sizes k); [apply (assoc_insert_nodup Nat.eqb Nat.eqb_eq)|];
    exact H.
Qed.

(** The value-to-range map of [getManagedStuff] has distinct keys; it
    gives a value the first range the liveness analysis reports for it
    when the value is managed, and no range otherwise. *)
Theorem getManagedStuff_ranges {X : Externals} (g : Graph) :
  let '(_, sizes, ranges, _) := getManagedStuff g in
  NoDup (map fst ranges)
  /\ forall v, a_find Nat.eqb ranges v
               = if a_count Nat.eqb sizes v then a_find Nat.eqb (GetLiveness g) v else None.
Proof.
  unfold getManagedStuff.
  destruct (getManagedValues g (GetAlwaysAliveValues g)) as [[outs sizes] ws]; simpl.
  split; [apply managed_ranges_nodup, NoDup_nil|].
  intros v; rewrite managed_ranges_fold; reflexivity.
Qed.

(** ** [collect_managed_live_ranges] (lines 381-384 of [planMemory]) *)

Lemma a_at_append_default (rs : list (nat * LiveRange)) k v :
  a_at Nat.eqb default_live_range (rs ++ [(k, default_live_range)]) v
  = a_at Nat.eqb default_live_range rs v.
Proof.
  unfold a_at; rewrite (assoc_find_app Nat.eqb).
  destruct (a_find Nat.eqb rs v); [reflexivity|]. simpl; destruct (Nat.eqb v k); reflexivity.
Qed.

Lemma collect_managed_fold (ranges : list (nat * LiveRange)) (l : list (nat * Z))
    (acc : list (LiveRange * Z) * list (nat * LiveRange)) :
  (forall v, a_at Nat.eqb default_live_range (snd acc) v
             = a_at Nat.eqb default_live_range ranges v) ->
  let res := fold_left (fun (acc : list (LiveRange * Z) * list (nat * LiveRange)) (item : nat * Z) =>
               let (mlr, rs) := acc in
               let r := a_at Nat.eqb default_live_range rs (fst item) in
               let rs' := if a_count Nat.eqb rs (fst item) then rs
                          else rs ++ [(fst item, default_live_range)] in
               (a_assign live_range_eqb mlr r (snd item), rs')) l acc in
  (forall r, a_find live_range_eqb (fst res) r
     = fold_left (fun acc (item : nat * Z) =>
                    if live_range_eqb (a_at Nat.eqb default_live_range ranges (fst item)) r
                    then Some (snd item) else acc) l (a_find live_range_eqb (fst acc) r))
  /\ (forall v, a_at Nat.eqb default_live_range (snd res) v
                = a_at Nat.eqb default_live_range ranges v).
Proof.
  revert acc; induction l as [|[k s] l IH]; intros [mlr rs] Hrs; simpl in *; [split; auto|].
  assert (Hrs1 : forall v, a_at Nat.eqb default_live_range
                             (if a_count Nat.eqb rs k then rs else rs ++ [(k, default_live_range)]) v
                           = a_at Nat.eqb default_live_range ranges v).
  { intros v; destruct (a_count Nat.eqb rs k); [|rewrite a_at_append_default]; apply Hrs. }
  destruct (IH (a_assign live_range_eqb mlr (a_at Nat.eqb default_live_range rs k) s,
              if a_count Nat.eqb rs k then rs else rs ++ [(k, default_live_range)]) Hrs1)
    as [H1 H2]; simpl in H1, H2; split; [|exact H2].
  intros r; rewrite H1; f_equal.
  rewrite (assoc_find_assign live_range_eqb live_range_eqb_spec), Hrs,
    (assoc_eqb_sym live_range_eqb live_range_eqb_spec); reflexivity.
Qed.

(** [managed_live_ranges[managed_value_ranges[v]] = size]: for every
    range, the managed map holds the size of the last managed value (in
    iteration order) whose range it is, so a later, smaller value
    overwrites an earlier one; a value with no range reads
    [LiveRange{}] = [[0, 0]].  Reading a range back after the loop gives
    what the input gave (the inserted defaults included). *)
Theorem collect_managed_live_ranges_last_wins (sizes : list (nat * Z))
    (ranges : list (nat * LiveRange)) :
  let '(managed_live_ranges, ranges') := collect_managed_live_ranges sizes ranges in
  (forall r, a_find live_range_eqb managed_live_ranges r
     = fold_left (fun acc (item : nat * Z) =>
                    if live_range_eqb (a_at Nat.eqb default_live_range ranges (fst item)) r
                    then Some (snd item) else acc) sizes None)
  /\ (forall v, a_at Nat.eqb default_live_range ranges' v
                = a_at Nat.eqb default_live_range ranges v).
Proof.
  unfold collect_managed_live_ranges.
  destruct (collect_managed_fold ranges sizes ([], ranges) (fun v => eq_refl)) as [H1 H2].
  destruct (fold_left _ sizes ([], ranges)) as [mlr rs]; simpl in *.
  split; [exact H1 | exact H2].
Qed.

(** ** The two materializers change the node count by the number of
    inserted nodes *)

Lemma nth_error_skipn_cons {A} (l : list A) i x :
  nth_error l i = Some x -> skipn i l = x :: skipn (S i) l.
Proof.
  revert l; induction i as [|i IH]; intros [|y l] H; simpl in *; try discriminate.
  - inversion H; reflexivity.
  - apply IH, H.
Qed.

Lemma insert_alloc_tensor_counts {X : Externals} storage allocations total_size g item g' :
  insert_alloc_tensor storage allocations total_size g item = Some g' ->
  List.length (g_nodes g') = S (List.length (g_nodes g)) /\ g_fresh g' = (g_fresh g + 1)%nat.
Proof.
  destruct item as [lvr value]; unfold insert_alloc_tensor, create; simpl.
  destruct (producer_index (g_nodes g) value) as [i|]; [|discriminate].
  destruct (nth_error (g_nodes g) i) as [node|] eqn:Hn; [|discriminate].
  destruct (value_type value) as [ttp|]; [|discriminate].
  destruct (getSizesStrides ttp) as [sizes strides].
  destruct (assert _); [|discriminate].
  destruct (tt_scalar_type ttp); [|discriminate].
  intros H; inversion H; subst; cbn [g_nodes g_fresh]; split; [|reflexivity].
  assert (Hi : (i < List.length (g_nodes g))%nat) by (apply nth_error_Some; congruence).
  change (match g_nodes g with [] => [] | _ :: l => skipn i l end) with (skipn (S i) (g_nodes g)).
  rewrite length_app, !length_cons, length_firstn, length_skipn; lia.
Qed.

Lemma fold_opt_alloc_counts {X : Externals} storage allocations total_size l g g' :
  fold_opt (insert_alloc_tensor storage allocations total_size) l g = Some g' ->
  List.length (g_nodes g') = (List.length (g_nodes g) + List.length l)%nat
  /\ g_fresh g' = (g_fresh g + List.length l)%nat.
Proof.
  revert g; induction l as [|item l IH]; simpl; intros g H.
  - inversion H; subst; split; lia.
  - destruct (insert_alloc_tensor storage allocations total_size g item) as [g1|] eqn:E;
      [|discriminate].
    destruct (insert_alloc_tensor_counts _ _ _ _ _ _ E) as [L1 F1].
    destruct (IH g1 H) as [L2 F2]; split; lia.
Qed.

(** When [insertAllocTensorNodes] succeeds, the graph has one more node
    (the [AllocateTensor]) and one more value (its output) per entry of
    the range-to-value map. *)
Theorem insertAllocTensorNodes_counts {X : Externals} (g : Graph) (storage : Node)
    (allocations : Plan) (manage_range_values : list (LiveRange * nat)) (g' : Graph) :
  insertAllocTensorNodes g storage allocations manage_range_values = Some g' ->
  List.length (g_nodes g') = (List.length (g_nodes g) + List.length manage_range_values)%nat
  /\ g_fresh g' = (g_fresh g + List.length manage_range_values)%nat.
Proof. apply fold_opt_alloc_counts. Qed.

Lemma insertAllocTensorNodes_counts_witness :
  exists g',
    @insertAllocTensorNodes (example_externals dup_liveness) dup_graph (storage_of_total 16)
      [(mkLiveRange 0 2, mkRegion 0 4)] [(mkLiveRange 0 2, 1%nat)] = Some g'
    /\ List.length (g_nodes g') = (List.length (g_nodes dup_graph) + 1)%nat
    /\ g_fresh g' = (g_fresh dup_graph + 1)%nat.
Proof.
  eexists; split; [vm_compute; reflexivity|].
  apply (@insertAllocTensorNodes_counts (example_externals dup_liveness) dup_graph
           (storage_of_total 16) [(mkLiveRange 0 2, mkRegion 0 4)] [(mkLiveRange 0 2, 1%nat)]).
  vm_compute; reflexivity.
Defined.

Lemma length_insert_at {A} i (x : A) l :
  List.length (insert_at i x l) = S (List.length l).
Proof.
  unfold insert_at; rewrite length_app; simpl.
  rewrite <- (firstn_skipn i l) at 3; rewrite length_app; lia.
Qed.

Lemma pre_alloc_fold_counts allocations lvrs (st : Graph * nat) :
  List.length (g_nodes (fst (fold_left (insert_pre_alloc_tensor allocations) lvrs st)))
    = (List.length (g_nodes (fst st)) + List.length lvrs)%nat
  /\ g_fresh (fst (fold_left (insert_pre_alloc_tensor allocations) lvrs st)) = g_fresh (fst st).
Proof.
  revert st; induction lvrs as [|lvr lvrs IH]; intros [g i]; cbn [fold_left fst List.length]; [split; lia|].
  destruct (IH (insert_pre_alloc_tensor allocations (g, i) lvr)) as [L F].
  rewrite L, F; unfold insert_pre_alloc_tensor, create; simpl.
  rewrite length_insert_at; split; lia.
Qed.

Lemma list_sum_perm (l l' : list nat) : Permutation l l' -> list_sum l = list_sum l'.
Proof. induction 1; simpl; lia. Qed.

Lemma fold_opt_pre_alloc_counts allocations groups (st st' : Graph * nat) :
  fold_opt (insert_pre_alloc_group allocations) groups st = Some st' ->
  List.length (g_nodes (fst st'))
    = (List.length (g_nodes (fst st)) + list_sum (map (fun it => List.length (snd it)) groups))%nat
  /\ g_fresh (fst st') = g_fresh (fst st).
Proof.
  revert st; induction groups as [|item groups IH]; simpl; intros st H.
  - inversion H; subst; split; lia.
  - destruct (insert_pre_alloc_group allocations st item) as [st1|] eqn:E; [|discriminate].
    destruct (IH st1 H) as [L2 F2].
    destruct st as [g cursor]; unfold insert_pre_alloc_group in E; simpl in E.
    destruct (advance_cursor _ _ _) as [i|]; [|discriminate].
    destruct (nth_error (g_nodes g) i); [|discriminate].
    destruct (assert _); [|discriminate].
    inversion E; subst.
    destruct (pre_alloc_fold_counts allocations (sort live_range_start_cmp (snd item)) (g, i))
      as [L1 F1]; simpl in L1, F1.
    rewrite (Permutation_length (sort_perm _ _)) in L1.
    split; [rewrite L2, L1; simpl; lia | rewrite F2, F1; reflexivity].
Qed.

(** When [insertPreAllocTensorNodes] succeeds, the graph has one more
    node per live range of the groups (the [PreAllocateTensor] nodes
    have no outputs, so no value is created). *)
Theorem insertPreAllocTensorNodes_counts (g : Graph) (storage : Node) (allocations : Plan)
    (collected_node_live_ranges : list (FrameNodeId * list LiveRange)) (g' : Graph) :
  insertPreAllocTensorNodes g storage allocations collected_node_live_ranges = Some g' ->
  List.length (g_nodes g')
    = (List.length (g_nodes g)
       + list_sum (map (fun it => List.length (snd it)) collected_node_live_ranges))%nat
  /\ g_fresh g' = g_fresh g.
Proof.
  unfold insertPreAllocTensorNodes.
  set (collected := sort _ collected_node_live_ranges).
  destruct (fold_opt (insert_pre_alloc_group allocations) collected (g, O)) as [st|] eqn:E;
    [|discriminate].
  intros H; inversion H; subst.
  destruct (fold_opt_pre_alloc_counts _ _ _ _ E) as [L F]; simpl in L, F.
  rewrite L, F; split; [|reflexivity].
  f_equal; apply list_sum_perm, Permutation_map, sort_perm.
Qed.

Lemma insertPreAllocTensorNodes_counts_witness :
  exists g',
    insertPreAllocTensorNodes pre_alloc_graph (storage_of_total 16)
      [(traced_range, mkRegion 0 16)] [(add_frame, [traced_range])] = Some g'
    /\ List.length (g_nodes g') = (List.length (g_nodes pre_alloc_graph) + 1)%nat
    /\ g_fresh g' = g_fresh pre_alloc_graph.
Proof.
  eexists; split; [vm_compute; reflexivity|].
  apply (insertPreAllocTensorNodes_counts pre_alloc_graph (storage_of_total 16)
           [(traced_range, mkRegion 0 16)] [(add_frame, [traced_range])]).
  vm_compute; reflexivity.
Defined.

(** ** [collectLiveRangesPerNode] *)

Lemma flat_map_perm {A B} (f : A -> list B) l l' :
  Permutation l l' -> Permutation (flat_map f l) (flat_map f l').
Proof.
  induction 1; simpl; auto.
  - apply Permutation_app_head; assumption.
  - rewrite !app_assoc; apply Permutation_app_tail, Permutation_app_comm.
  - eapply perm_trans; eassumption.
Qed.

Lemma group_append_perm (m : list (FrameNodeId * list LiveRange)) k x :
  Permutation
    (flat_map snd (a_assign frame_node_id_eqb m k (a_at frame_node_id_eqb [] m k ++ [x])))
    (flat_map snd m ++ [x]).
Proof.
  induction m as [|[k1 v1] m IH]; unfold a_at in *; simpl; [auto|].
  destruct (frame_node_id_eqb k k1); simpl.
  - rewrite <- !app_assoc; apply Permutation_app_head, Permutation_app_comm.
  - rewrite <- app_assoc; apply Permutation_app_head, IH.
Qed.

Lemma group_fold l (m : list (FrameNodeId * list LiveRange)) :
  NoDup (map fst m) ->
  NoDup (map fst (fold_left group_append l m))
  /\ Permutation (flat_map snd (fold_left group_append l m)) (flat_map snd m ++ map fst l).
Proof.
  revert m; induction l as [|[lvr f] l IH]; simpl; intros m Hnd.
  - rewrite app_nil_r; split; auto.
  - destruct (IH (group_append m (lvr, f))) as [H1 H2].
    { apply (assoc_assign_nodup frame_node_id_eqb frame_node_id_eqb_spec), Hnd. }
    split; [exact H1|].
    eapply perm_trans; [exact H2|].
    unfold group_append; simpl.
    change (lvr :: map fst l) with ([lvr] ++ map fst l); rewrite app_assoc.
    apply Permutation_app_tail, group_append_perm.
Qed.

Lemma frame_cmp_asym (x y : FrameNodeId * list LiveRange) :
  frame_node_id_cmp (fst x) (fst y) = true -> frame_node_id_cmp (fst y) (fst x) = false.
Proof. unfold frame_node_id_cmp; rewrite Z.ltb_lt, Z.ltb_ge; lia. Qed.

Lemma start_cmp_asym (x y : LiveRange) :
  live_range_start_cmp x y = true -> live_range_start_cmp y x = false.
Proof. unfold live_range_start_cmp; rewrite Z.ltb_lt, Z.ltb_ge; lia. Qed.

(** [collectLiveRangesPerNode] groups the live ranges by frame: the
    groups come in frame time order, each group's ranges in begin order,
    no frame has two groups, and every input range is in exactly one
    group (the groups' ranges are a permutation of the input ranges). *)
Theorem collectLiveRangesPerNode_groups (live_range_node_header : list (LiveRange * FrameNodeId)) :
  let out := collectLiveRangesPerNode live_range_node_header in
  Sorted (not_after (fun a b : FrameNodeId * list LiveRange => frame_node_id_cmp (fst a) (fst b))) out
  /\ (forall f lvrs, In (f, lvrs) out -> Sorted (not_after live_range_start_cmp) lvrs)
  /\ NoDup (map fst out)
  /\ Permutation (flat_map snd out) (map fst live_range_node_header).
Proof.
  unfold collectLiveRangesPerNode.
  destruct (group_fold live_range_node_header [] (NoDup_nil _)) as [Hnd Hp].
  set (nlr := fold_left group_append live_range_node_header []) in *.
  set (srt := fun item : FrameNodeId * list LiveRange => (fst item, sort live_range_start_cmp (snd item))).
  set (cmp := fun a b : FrameNodeId * list LiveRange => frame_node_id_cmp (fst a) (fst b)).
  pose proof (sort_perm cmp (map srt nlr)) as Hs.
  split; [apply sort_sorted, frame_cmp_asym|].
  split.
  - intros f lvrs Hin. apply (Permutation_in _ Hs), in_map_iff in Hin.
    destruct Hin as [[f' l'] [E _]]; unfold srt in E; simpl in E; inversion E; subst.
    apply sort_sorted, start_cmp_asym.
  - split.
    + apply (Permutation_NoDup (Permutation_sym (Permutation_map fst Hs))).
      rewrite map_map; exact Hnd.
    + eapply perm_trans; [apply flat_map_perm, Hs|].
      eapply perm_trans; [|exact Hp].
      clear Hs Hp Hnd; induction nlr as [|[f l] nlr IH]; simpl; [auto|].
      apply Permutation_app; [apply sort_perm | exact IH].
Qed.

(** ** The range-to-value map of [planMemory] *)

Lemma start_equiv_iff a b : start_equiv a b = true <-> lr_begin a = lr_begin b.
Proof.
  unfold start_equiv, live_range_start_cmp; rewrite andb_true_iff, !negb_true_iff, !Z.ltb_ge; lia.
Qed.

Definition begins_of (m : list (LiveRange * nat)) : list Z := map (fun e => lr_begin (fst e)) m.

Lemma range_map_insert_inv m r v :
  Sorted (not_after (fun x y : LiveRange * nat => live_range_start_cmp (fst x) (fst y))) m ->
  NoDup (begins_of m) ->
  let m1 := range_map_insert m r v in
  Sorted (not_after (fun x y : LiveRange * nat => live_range_start_cmp (fst x) (fst y))) m1
  /\ NoDup (begins_of m1)
  /\ (forall e, In e m1 -> In e m \/ e = (r, v))
  /\ (forall e, In e m -> In e m1)
  /\ exists e, In e m1 /\ lr_begin (fst e) = lr_begin r.
Proof.
  intros Hs Hnd; unfold range_map_insert.
  destruct (a_count start_equiv m r) eqn:Ec.
  - split; [exact Hs | split; [exact Hnd | split; [auto | split; [auto|]]]].
    rewrite a_count_existsb, existsb_exists in Ec; destruct Ec as [e [Hin He]].
    apply start_equiv_iff in He; exists e; split; [exact Hin | symmetry; exact He].
  - set (lt := fun x y : LiveRange * nat => live_range_start_cmp (fst x) (fst y)).
    pose proof (sort_insert_perm lt (r, v) m) as Hp.
    split; [apply sort_insert_sorted; [intros x y; apply start_cmp_asym | exact Hs]|].
    split.
    + unfold begins_of; apply (Permutation_NoDup (Permutation_sym (Permutation_map _ Hp))).
      simpl; constructor; [|exact Hnd].
      intros Hin; apply in_map_iff in Hin; destruct Hin as [e [He Hin]].
      assert (existsb (fun kv => start_equiv r (fst kv)) m = true)
        by (apply existsb_exists; exists e; split; [exact Hin | apply start_equiv_iff; auto]).
      rewrite a_count_existsb in Ec; congruence.
    + split; [intros e Hin; apply (Permutation_in _ Hp) in Hin; destruct Hin; auto|].
      split; [intros e Hin; apply (Permutation_in _ (Permutation_sym Hp)); right; exact Hin|].
      exists (r, v); split; [apply (Permutation_in _ (Permutation_sym Hp)); left|]; reflexivity.
Qed.

Lemma range_fold_inv l (acc : list (LiveRange * nat) * list Warning) :
  Sorted (not_after (fun x y : LiveRange * nat => live_range_start_cmp (fst x) (fst y))) (fst acc) ->
  NoDup (begins_of (fst acc)) ->
  let m := fst (fold_left range_value_step l acc) in
  Sorted (not_after (fun x y : LiveRange * nat => live_range_start_cmp (fst x) (fst y))) m
  /\ NoDup (begins_of m)
  /\ (forall e, In e m -> In e (fst acc) \/ In (snd e, fst e) l)
  /\ (forall e, In e (fst acc) -> exists e', In e' m /\ lr_begin (fst e') = lr_begin (fst e))
  /\ (forall v r, In (v, r) l -> exists e, In e m /\ lr_begin (fst e) = lr_begin r).
Proof.
  revert acc; induction l as [|[v r] l IH]; intros [m ws] Hs Hnd; simpl in *.
  - split; [exact Hs | split; [exact Hnd | split; [auto | split; [|tauto]]]]. eauto.
  - destruct (range_map_insert_inv m r v Hs Hnd) as [Hs1 [Hnd1 [Hin1 [Hkeep1 Hex1]]]].
    destruct (IH (range_map_insert m r v, snd (range_value_step (m, ws) (v, r))) Hs1 Hnd1)
      as [Hs2 [Hnd2 [Hin2 [Hkeep2 Hcov2]]]]; simpl in *.
    split; [exact Hs2 | split; [exact Hnd2|]].
    split; [|split].
    + intros e He; destruct (Hin2 e He) as [H | H]; [|auto].
      destruct (Hin1 e H) as [H' | ->]; auto.
    + intros e He; apply Hkeep2, Hkeep1, He.
    + intros v' r' [E | H]; [|exact (Hcov2 v' r' H)].
      inversion E; subst. destruct Hex1 as [e [He Hb]].
      destruct (Hkeep2 e He) as [e' [He' Hb']]; exists e'; split; [exact He' | congruence].
Qed.

Lemma range_map_insert_cases m r v e :
  In e (range_map_insert m r v) ->
  In e m \/ (a_count start_equiv m r = false /\ e = (r, v)).
Proof.
  unfold range_map_insert; destruct (a_count start_equiv m r) eqn:Ec; intros He.
  - left; exact He.
  - apply (Permutation_in _ (sort_insert_perm _ _ _)) in He.
    destruct He as [<- | He]; [right; auto | left; exact He].
Qed.

Lemma range_map_insert_keeps_in m r v e :
  In e m -> In e (range_map_insert m r v).
Proof.
  unfold range_map_insert; destruct (a_count start_equiv m r); intros He; [exact He|].
  exact (Permutation_in _ (Permutation_sym (sort_insert_perm _ _ _)) (or_intror He)).
Qed.

Lemma range_map_insert_covers m r v :
  exists e, In e (range_map_insert m r v) /\ lr_begin (fst e) = lr_begin r.
Proof.
  unfold range_map_insert; destruct (a_count start_equiv m r) eqn:Ec.
  - rewrite a_count_existsb in Ec; apply existsb_exists in Ec.
    destruct Ec as [e [He Hs]]; exists e; split; [exact He|].
    symmetry; apply start_equiv_iff; exact Hs.
  - exists (r, v); split; [|reflexivity].
    exact (Permutation_in _ (Permutation_sym (sort_insert_perm _ _ _)) (or_introl eq_refl)).
Qed.

(** Folding [range_value_step] over [l] after [done]: every entry's value
    is the first one in the input whose range has the entry's begin, and
    every begin seen has an entry. *)
Lemma range_fold_first (l done : list (nat * LiveRange)) acc :
  (forall e, In e (fst acc) -> exists pre post,
       done = pre ++ (snd e, fst e) :: post
       /\ forall v r, In (v, r) pre -> lr_begin r <> lr_begin (fst e)) ->
  (forall v r, In (v, r) done -> exists e, In e (fst acc) /\ lr_begin (fst e) = lr_begin r) ->
  (forall e, In e (fst (fold_left range_value_step l acc)) -> exists pre post,
       done ++ l = pre ++ (snd e, fst e) :: post
       /\ forall v r, In (v, r) pre -> lr_begin r <> lr_begin (fst e))
  /\ (forall v r, In (v, r) (done ++ l) ->
        exists e, In e (fst (fold_left range_value_step l acc)) /\ lr_begin (fst e) = lr_begin r).
Proof.
  revert done acc.
  induction l as [|[v r] l IH]; intros done [m ws] Hf Hc.
  - rewrite app_nil_r; split; [exact Hf | exact Hc].
  - replace (done ++ (v, r) :: l) with ((done ++ [(v, r)]) ++ l)
      by (rewrite <- app_assoc; reflexivity).
    cbn [fold_left]; apply IH;
      change (fst (range_value_step (m, ws) (v, r))) with (range_map_insert m r v).
    + intros e He; destruct (range_map_insert_cases _ _ _ _ He) as [He' | [Ec ->]].
      * destruct (Hf e He') as (pre & post & Hd & Hn).
        exists pre, (post ++ [(v, r)]); split; [|exact Hn].
        rewrite Hd, <- app_assoc; reflexivity.
      * exists done, []; split; [reflexivity|].
        intros v' r' Hin Heq; cbn [fst] in Heq.
        destruct (Hc v' r' Hin) as (e & He' & Hb).
        rewrite a_count_existsb in Ec.
        assert (Ht : existsb (fun kv => start_equiv r (fst kv)) m = true).
        { apply existsb_exists; exists e; split; [exact He'|].
          apply start_equiv_iff; congruence. }
        congruence.
    + intros v' r' Hin; apply in_app_or in Hin; destruct Hin as [Hin | [Heq | []]].
      * destruct (Hc v' r' Hin) as (e & He & Hb).
        exists e; split; [apply range_map_insert_keeps_in; exact He | exact Hb].
      * injection Heq as -> ->; apply range_map_insert_covers.
Qed.

(** The range-to-value map built by [planMemory] is ordered by begin and
    has one entry per begin time: [live_range_start_cmp] compares begins
    only, so two ranges with the same begin (even with different ends)
    are one key and only the first value for that begin is kept: each
    entry is a (range, value) pair of the input with no earlier input
    pair of the same begin, and every input begin has an entry. *)
Theorem collect_range_values_keys (managed_value_ranges : list (nat * LiveRange)) :
  let m := fst (collect_range_values managed_value_ranges) in
  Sorted (not_after (fun x y : LiveRange * nat => live_range_start_cmp (fst x) (fst y))) m
  /\ NoDup (map (fun e => lr_begin (fst e)) m)
  /\ (forall e, In e m -> In (snd e, fst e) managed_value_ranges)
  /\ (forall e, In e m -> exists pre post,
        managed_value_ranges = pre ++ (snd e, fst e) :: post
        /\ forall v r, In (v, r) pre -> lr_begin r <> lr_begin (fst e))
  /\ (forall v r, In (v, r) managed_value_ranges ->
        exists e, In e m /\ lr_begin (fst e) = lr_begin r).
Proof.
  unfold collect_range_values.
  destruct (range_fold_inv managed_value_ranges ([], []) (Sorted_nil _) (NoDup_nil _))
    as [Hs [Hnd [Hin [_ Hcov]]]].
  destruct (range_fold_first managed_value_ranges [] ([], []))
    as [Hfirst _]; [intros _ [] | intros _ _ [] |].
  split; [exact Hs | split; [exact Hnd | split; [|split; [exact Hfirst | exact Hcov]]]].
  intros e He; destruct (Hin e He) as [[] | H]; exact H.
Qed.

(** ** [planMemory] never raises *)

Lemma computeStorageSize_typed {X : Externals} v s :
  fst (computeStorageSize v) = Some s ->
  exists ttp d, value_type v = Some ttp /\ tt_scalar_type ttp = Some d.
Proof.
  unfold computeStorageSize.
  destruct (value_type v) as [ttp|]; [|discriminate].
  destruct (tt_scalar_type ttp) as [d|] eqn:Ed; [|discriminate].
  intros _; exists ttp, d; auto.
Qed.

Lemma producer_index_some (ns : list Node) v :
  In v (flat_map n_outputs ns) ->
  exists i n, producer_index ns v = Some i /\ nth_error ns i = Some n.
Proof.
  induction ns as [|n ns IH]; simpl; [tauto|].
  destruct (existsb (Nat.eqb v) (n_outputs n)) eqn:E; [exists O, n; auto|].
  intros Hin; apply in_app_or in Hin; destruct Hin as [Hin | Hin].
  - rewrite (proj2 (existsb_exists _ _) (ex_intro _ v (conj Hin (Nat.eqb_refl v)))) in E;
      discriminate.
  - destruct (IH Hin) as [i [n' [Hp Hn]]]; exists (S i), n'; rewrite Hp; auto.
Qed.

Lemma insert_alloc_tensor_some {X : Externals} storage allocations total_size g lvr value :
  In value (flat_map n_outputs (g_nodes g)) ->
  (exists ttp d, value_type value = Some ttp /\ tt_scalar_type ttp = Some d) ->
  (let region := a_at live_range_eqb default_region allocations lvr in
   u64 (offset region + size region) <= total_size) ->
  exists g', insert_alloc_tensor storage allocations total_size g (lvr, value) = Some g'
             /\ incl (flat_map n_outputs (g_nodes g)) (flat_map n_outputs (g_nodes g')).
Proof.
  intros Hin [ttp [d [Hv Hd]]] Hb.
  destruct (producer_index_some _ _ Hin) as [i [n [Hp Hn]]].
  unfold insert_alloc_tensor; rewrite Hp, Hn; unfold create; cbn [g_nodes g_fresh].
  rewrite Hv; destruct (getSizesStrides ttp) as [sizes strides].
  unfold assert; rewrite (proj2 (Z.leb_le _ _) Hb), Hd.
  eexists; split; [reflexivity|]; cbn [g_nodes].
  intros x Hx.
  rewrite <- (firstn_skipn i (g_nodes g)), (nth_error_skipn_cons _ _ _ Hn) in Hx.
  rewrite flat_map_app in *; cbn [flat_map] in *.
  rewrite !in_app_iff in *; cbn [n_outputs add_input set_attr] in *; tauto.
Qed.

Lemma fold_opt_alloc_some {X : Externals} storage allocations total_size rv g :
  (forall e, In e rv -> In (snd e) (flat_map n_outputs (g_nodes g))
                        /\ exists ttp d, value_type (snd e) = Some ttp /\ tt_scalar_type ttp = Some d) ->
  (forall lvr, let region := a_at live_range_eqb default_region allocations lvr in
               u64 (offset region + size region) <= total_size) ->
  fold_opt (insert_alloc_tensor storage allocations total_size) rv g <> None.
Proof.
  revert g; induction rv as [|[lvr value] rv IH]; cbn [fold_opt]; intros g He Hb; [discriminate|].
  destruct (He (lvr, value) (or_introl eq_refl)) as [Hin Ht].
  destruct (insert_alloc_tensor_some storage allocations total_size g lvr value Hin Ht (Hb lvr))
    as [g1 [E Hincl]].
  rewrite E; apply IH; [|exact Hb].
  intros e Hin'; destruct (He e (or_intror Hin')) as [H1 H2]; split; [apply Hincl, H1 | exact H2].
Qed.

Lemma insertAllocStorageNode_shape {X : Externals} g total_size :
  attr_int (snd (insertAllocStorageNode g total_size)) "total_size" = total_size
  /\ g_nodes (fst (insertAllocStorageNode g total_size))
     = snd (insertAllocStorageNode g total_size) :: g_nodes g.
Proof.
  unfold insertAllocStorageNode, create; simpl.
  destruct (pickDeviceType _); split; reflexivity.
Qed.

Lemma collect_managed_rs_keys (l : list (nat * Z)) (acc : list (LiveRange * Z) * list (nat * LiveRange)) v :
  let res := fold_left (fun (acc : list (LiveRange * Z) * list (nat * LiveRange)) (item : nat * Z) =>
               let (mlr, rs) := acc in
               let r := a_at Nat.eqb default_live_range rs (fst item) in
               let rs' := if a_count Nat.eqb rs (fst item) then rs
                          else rs ++ [(fst item, default_live_range)] in
               (a_assign live_range_eqb mlr r (snd item), rs')) l acc in
  In v (map fst (snd res)) -> In v (map fst (snd acc)) \/ In v (map fst l).
Proof.
  revert acc; induction l as [|[k s] l IH]; intros [mlr rs]; simpl; [auto|].
  intros H; destruct (IH _ H) as [H1 | H1]; [|auto]; simpl in H1.
  destruct (a_count Nat.eqb rs k); [auto|].
  rewrite map_app in H1; apply in_app_or in H1; simpl in H1; destruct H1 as [H1 | [<- | []]]; auto.
Qed.

Lemma managed_stuff_values {X : Externals} (g : Graph) :
  let '(_, sizes, ranges, _) := getManagedStuff g in
  forall v, In v (map fst (snd (collect_managed_live_ranges sizes ranges))) ->
    In v (flat_map n_outputs (g_nodes g))
    /\ exists ttp d, value_type v = Some ttp /\ tt_scalar_type ttp = Some d.
Proof.
  unfold getManagedStuff.
  pose proof (getManagedValues_facts g (GetAlwaysAliveValues g)) as Hf.
  destruct (getManagedValues g (GetAlwaysAliveValues g)) as [[outs sizes] ws].
  destruct Hf as [_ [_ Hf]].
  intros v Hin.
  assert (Hs : exists s, a_find Nat.eqb sizes v = Some s).
  { unfold collect_managed_live_ranges in Hin.
    destruct (collect_managed_rs_keys sizes ([], _) v Hin) as [H | H]; simpl in H.
    - apply a_find_nat_exists in H; destruct H as [r Hr].
      rewrite managed_ranges_fold in Hr; simpl in Hr.
      unfold a_count in Hr; destruct (a_find Nat.eqb sizes v) as [s|]; [eauto | discriminate].
    - apply a_find_nat_exists, H. }
  destruct Hs as [s Hs]; apply Hf in Hs.
  destruct Hs as [[n [Hn [_ Hvn]]] [_ [Hc _]]].
  split; [apply in_flat_map; exists n; auto | exact (computeStorageSize_typed v s Hc)].
Qed.

(** With any of the three heuristics, [planMemory] never raises: every
    value of the range-to-value map has a producer and a tensor type with
    a dtype, and the [TORCH_CHECK] on [offset + size <= total_size] always
    holds. *)
Theorem planMemory_never_raises {X : Externals} (g : Graph) (strat : Strategy) :
  planMemory g strat <> None.
Proof.
  unfold planMemory.
  pose proof (managed_stuff_values g) as Hv.
  destruct (getManagedStuff g) as [[[outs sizes] ranges] ws].
  destruct (collect_managed_live_ranges sizes ranges) as [mlr rs'] eqn:Ec.
  simpl in Hv.
  assert (Htail : forall allocations,
    (let (managed_range_values, ws2) := collect_range_values rs' in
     let (g1, storage_node) := insertAllocStorageNode g (getTotalAllocationSize allocations) in
     let* g2 := insertAllocTensorNodes g1 storage_node allocations managed_range_values in
     Some (g2, ws ++ ws2)) <> None).
  { intros allocations.
    pose proof (range_fold_inv rs' ([], []) (Sorted_nil _) (NoDup_nil _)) as [_ [_ [Hin _]]].
    unfold collect_range_values.
    destruct (fold_left range_value_step rs' ([], [])) as [mrv ws2]; simpl in Hin.
    pose proof (insertAllocStorageNode_shape g (getTotalAllocationSize allocations)) as [Ht Hn].
    destruct (insertAllocStorageNode g (getTotalAllocationSize allocations)) as [g1 st].
    simpl in Ht, Hn.
    assert (Hsome : insertAllocTensorNodes g1 st allocations mrv <> None).
    { unfold insertAllocTensorNodes; rewrite Ht.
      apply fold_opt_alloc_some; [|apply getTotalAllocationSize_bound].
      intros e He; destruct (Hin e He) as [[] | H].
      destruct (Hv (snd e) (in_map fst _ _ H)) as [Ho Hty].
      split; [rewrite Hn; simpl; apply in_or_app; right; exact Ho | exact Hty]. }
    destruct (insertAllocTensorNodes g1 st allocations mrv); [discriminate | congruence]. }
  destruct strat; [discriminate | apply Htail | apply Htail | apply Htail].
Qed.

(** ** [MemoryPlanningAllocator] *)

(** [push_allocation] raises exactly when the device type differs from
    the allocator's; after a successful push, an [allocate] of the pushed
    size returns a [DataPtr] at [buffer + offset] with the [DoNothing]
    deleter and the allocator's device, and restores the allocator. *)
Theorem push_allocation_allocate_roundtrip (a : MemoryPlanningAllocator)
    (buffer size offset device_type : Z) :
  (push_allocation a buffer size offset device_type = None <-> device_type <> device_type_ a)
  /\ exists a1, push_allocation a buffer size offset (device_type_ a) = Some a1
     /\ allocate a1 size
        = Some (a, Some (mkDataPtr (buffer + offset) (buffer + offset) DoNothing (device_type_ a))).
Proof.
  split.
  - unfold push_allocation, assert; destruct (device_type =? device_type_ a) eqn:E.
    + apply Z.eqb_eq in E; split; [discriminate | tauto].
    + apply Z.eqb_neq in E; split; [auto | reflexivity].
  - destruct a as [d st]; unfold push_allocation, assert; simpl; rewrite Z.eqb_refl.
    eexists; split; [reflexivity|]. unfold allocate; simpl; rewrite Z.eqb_refl; reflexivity.
Qed.

(** Entries are served in the reverse order of their pushes: after two
    pushes, the first [allocate] gets the second entry and the next one
    the first entry; the allocator is then back to its initial stack. *)
Theorem push_allocation_lifo (a a1 a2 : MemoryPlanningAllocator)
    (b1 s1 o1 d1 b2 s2 o2 d2 : Z) :
  push_allocation a b1 s1 o1 d1 = Some a1 ->
  push_allocation a1 b2 s2 o2 d2 = Some a2 ->
  exists a3,
    allocate a2 s2 = Some (a3, Some (mkDataPtr (b2 + o2) (b2 + o2) DoNothing (device_type_ a)))
    /\ allocate a3 s1 = Some (a, Some (mkDataPtr (b1 + o1) (b1 + o1) DoNothing (device_type_ a))).
Proof.
  destruct a as [d st]; unfold push_allocation, assert; simpl.
  destruct (d1 =? d); [|discriminate]; intros H1; inversion H1; subst; simpl.
  destruct (d2 =? d); [|discriminate]; intros H2; inversion H2; subst.
  exists (mkMemoryPlanningAllocator d ((s1, b1 + o1) :: st)).
  split; unfold allocate; simpl; rewrite Z.eqb_refl; reflexivity.
Qed.

Lemma push_allocation_lifo_witness :
  push_allocation (mkMemoryPlanningAllocator 0 []) 100 16 0 0
    = Some (mkMemoryPlanningAllocator 0 [(16, 100)])
  /\ push_allocation (mkMemoryPlanningAllocator 0 [(16, 100)]) 100 8 16 0
    = Some (mkMemoryPlanningAllocator 0 [(8, 116); (16, 100)])
  /\ exists a3,
    allocate (mkMemoryPlanningAllocator 0 [(8, 116); (16, 100)]) 8
      = Some (a3, Some (mkDataPtr (100 + 16) (100 + 16) DoNothing 0))
    /\ allocate a3 16 = Some (mkMemoryPlanningAllocator 0 [], Some (mkDataPtr (100 + 0) (100 + 0) DoNothing 0)).
Proof.
  assert (H1 : push_allocation (mkMemoryPlanningAllocator 0 []) 100 16 0 0
               = Some (mkMemoryPlanningAllocator 0 [(16, 100)])) by reflexivity.
  assert (H2 : push_allocation (mkMemoryPlanningAllocator 0 [(16, 100)]) 100 8 16 0
               = Some (mkMemoryPlanningAllocator 0 [(8, 116); (16, 100)])) by reflexivity.
  split; [exact H1 | split; [exact H2|]].
  exact (push_allocation_lifo _ _ _ 100 16 0 0 100 8 16 0 H1 H2).
Defined.

(** A request whose size is not the one of the top entry raises, but the
    entry has already been popped: a retry of the same request is served
    by the entry below it. *)
Theorem allocate_mismatch_consumes_entry (a a1 a2 : MemoryPlanningAllocator)
    (b1 s1 o1 d1 b2 s2 o2 d2 : Z) :
  push_allocation a b1 s1 o1 d1 = Some a1 ->
  push_allocation a1 b2 s2 o2 d2 = Some a2 ->
  s1 <> s2 ->
  exists a3,
    allocate a2 s1 = Some (a3, None)
    /\ allocate a3 s1 = Some (a, Some (mkDataPtr (b1 + o1) (b1 + o1) DoNothing (device_type_ a))).
Proof.
  intros H1 H2 Hne; revert H1 H2.
  destruct a as [d st]; unfold push_allocation, assert; simpl.
  destruct (d1 =? d); [|discriminate]; intros H1; inversion H1; subst; simpl.
  destruct (d2 =? d); [|discriminate]; intros H2; inversion H2; subst.
  exists (mkMemoryPlanningAllocator d ((s1, b1 + o1) :: st)).
  split; unfold allocate; simpl.
  - rewrite (proj2 (Z.eqb_neq s2 s1) (fun E => Hne (eq_sym E))); reflexivity.
  - rewrite Z.eqb_refl; reflexivity.
Qed.

Lemma allocate_mismatch_consumes_entry_witness :
  push_allocation (mkMemoryPlanningAllocator 0 []) 100 16 0 0
    = Some (mkMemoryPlanningAllocator 0 [(16, 100)])
  /\ push_allocation (mkMemoryPlanningAllocator 0 [(16, 100)]) 100 8 16 0
    = Some (mkMemoryPlanningAllocator 0 [(8, 116); (16, 100)])
  /\ 16 <> 8
  /\ exists a3,
    allocate (mkMemoryPlanningAllocator 0 [(8, 116); (16, 100)]) 16 = Some (a3, None)
    /\ allocate a3 16 = Some (mkMemoryPlanningAllocator 0 [], Some (mkDataPtr (100 + 0) (100 + 0) DoNothing 0)).
Proof.
  assert (H1 : push_allocation (mkMemoryPlanningAllocator 0 []) 100 16 0 0
               = Some (mkMemoryPlanningAllocator 0 [(16, 100)])) by reflexivity.
  assert (H2 : push_allocation (mkMemoryPlanningAllocator 0 [(16, 100)]) 100 8 16 0
               = Some (mkMemoryPlanningAllocator 0 [(8, 116); (16, 100)])) by reflexivity.
  assert (H3 : 16 <> 8) by lia.
  split; [exact H1 | split; [exact H2 | split; [exact H3|]]].
  exact (allocate_mismatch_consumes_entry _ _ _ 100 16 0 0 100 8 16 0 H1 H2 H3).
Defined.
